(** * Lab4: a bump-pointer arena allocator and the dynamic array built on it

    A shallow embedding of [src/main.cpp]: the class templates
    [CustomAllocator<T>] and [CustomContainer<T, Allocator>], over a small
    model of the C++ free store. *)

From Equations Require Import Equations.
From stdpp Require Import base numbers option list gmap strings.
From Stdlib Require Import ZArith Lia.

Local Open Scope Z_scope.

(** ** [size_t] *)

(** [size_t] is a 64-bit unsigned integer: a [Z] in [0, 2^64), with the
    wrap-around of [+] and [*] written out. *)
Definition SIZE_MAX : Z := 2 ^ 64 - 1.

Definition is_size_t (x : Z) : Prop := 0 ≤ x ≤ SIZE_MAX.

Definition wrap (x : Z) : Z := x `mod` 2 ^ 64.

Definition add64 (x y : Z) : Z := wrap (x + y).
Definition mul64 (x y : Z) : Z := wrap (x * y).

(** ** Pointers *)

(** A [T*] is a 64-bit byte address; [nullptr] is address 0. Pointer
    arithmetic [p + i] advances by [i] objects, that is by [i * sizeof(T)]
    bytes, and wraps around the address space as the machine does. *)
Definition ptr : Type := Z.
Definition nullptr : ptr := 0.

Class Sized (T : Type) : Type := sizeof : Z.
Global Hint Mode Sized ! : typeclass_instances.
Global Arguments sizeof T {_}.

Definition ptr_add (T : Type) `{!Sized T} (p : ptr) (i : Z) : ptr :=
  wrap (p + i * sizeof T).

(** ** Exceptions *)

Inductive exn : Type :=
  | bad_alloc
  | bad_array_new_length
  | runtime_error (what : string).

Global Instance exn_eq_dec : EqDecision exn.
Proof. solve_decision. Defined.

(** ** Computations that mutate a state and may throw *)

(** A member function is a function from the state before the call to an
    outcome and the state after it. When the call throws, the state is the
    one reached at the [throw]: nothing is rolled back. *)
Definition M (S R : Type) : Type := S → (exn + R) * S.

Definition ret {S R} (r : R) : M S R := λ s, (inr r, s).

Definition bind {S R R'} (m : M S R) (k : R → M S R') : M S R' :=
  λ s, match m s with
       | (inr r, s') => k r s'
       | (inl e, s') => (inl e, s')
       end.

Definition throw {S R} (e : exn) : M S R := λ s, (inl e, s).

Declare Scope cpp_scope.
Delimit Scope cpp_scope with cpp.
Notation "x <- m ;; k" := (bind m (λ x, k))
  (at level 100, m at next level, right associativity) : cpp_scope.
Notation "m ;; k" := (bind m (λ _, k))
  (at level 100, right associativity) : cpp_scope.
Local Open Scope cpp_scope.

(** [when b m] is [if (b) { m }]. *)
Definition when {S} (b : bool) (m : M S unit) : M S unit :=
  if b then m else ret ().

(** [for (size_t i = 0; i < n; ++i) body(i)]. *)
Definition for_range {S} (n : Z) (body : Z → M S unit) : M S unit :=
  foldr (λ i k, body i ;; k) (ret ()) (seqZ 0 n).

(** How a call of a [noexcept] function ends: it returns, or an exception
    [e] reaches its boundary and [std::terminate] ends the program. *)
Inductive completion : Type :=
  | Returns
  | Terminates (e : exn).

(** A function body under [noexcept]. Destructors are [noexcept] unless
    declared otherwise. *)
Definition noexcept {S} (body : M S unit) : S → completion * S :=
  λ s, match body s with
       | (inr _, s') => (Returns, s')
       | (inl e, s') => (Terminates e, s')
       end.

(** A computation that returns normally from every state. *)
Definition total {S} (m : M S unit) : Prop := ∀ s, ∃ s', m s = (inr (), s').

(** Run a computation on the second component of a pair (the free store),
    or on the first (the object). *)
Definition on_heap {O H R} (m : M H R) : M (O * H) R :=
  λ '(o, h), let '(r, h') := m h in (r, (o, h')).

Definition this {O H} : M (O * H) O := λ '(o, h), (inr o, (o, h)).
Definition assign {O H} (f : O → O) : M (O * H) unit :=
  λ '(o, h), (inr (), (f o, h)).

(** ** The free store *)

Section free_store.
Context {T : Type} `{!Sized T}.

(** [blocks]: the storage obtained from [::operator new] and not yet
    released, as (base, byte length). [objects]: the objects of type [T]
    whose lifetime has begun, by address. [brk], [store_end]: the next
    address to hand out and the end of the store's memory; storage is
    never reused. [faults] counts the accesses whose behaviour C++ leaves
    undefined (a read of storage holding no object, a write outside every
    live block, a second destruction, a release of a pointer that is not
    a live block); execution continues after them, as on a real machine.
    A run whose [faults] are those it started with has met none. *)
Record heap : Type := Heap {
  blocks : list (ptr * Z);
  objects : gmap ptr T;
  brk : ptr;
  store_end : ptr;
  faults : nat
}.

(** The end of the memory the store can hand out: its own end, and never
    beyond the 64-bit address space. *)
Definition limit (h : heap) : ptr := Z.min (store_end h) SIZE_MAX.

Definition set_blocks (f : list (ptr * Z) → list (ptr * Z)) (h : heap) :=
  Heap (f (blocks h)) (objects h) (brk h) (store_end h) (faults h).
Definition set_objects (f : gmap ptr T → gmap ptr T) (h : heap) :=
  Heap (blocks h) (f (objects h)) (brk h) (store_end h) (faults h).
Definition set_brk (f : ptr → ptr) (h : heap) :=
  Heap (blocks h) (objects h) (f (brk h)) (store_end h) (faults h).
Definition fault (h : heap) :=
  Heap (blocks h) (objects h) (brk h) (store_end h) (S (faults h)).

(** An empty store whose addresses run from [base] to [lim]. *)
Definition empty_heap (base lim : ptr) : heap := Heap [] ∅ base lim 0.

(** [::operator new(bytes)]: a fresh block, or [std::bad_alloc]. A request
    of zero bytes still yields a distinct non-null address. *)
Definition operator_new (bytes : Z) : M heap ptr := λ h,
  let len := Z.max bytes 1 in
  if bool_decide (brk h + len ≤ limit h)
  then (inr (brk h),
        set_brk (λ b, b + len) (set_blocks (cons (brk h, bytes)) h))
  else (inl bad_alloc, h).

Definition in_block (p : ptr) (b : ptr * Z) : bool :=
  bool_decide (b.1 ≤ p < b.1 + b.2).

Definition is_block (p : ptr) (b : ptr * Z) : bool := bool_decide (b.1 = p).

(** [::operator delete(p)]: releases the block that starts at [p]; the
    objects still in it are gone with it. A null [p] does nothing. *)
Definition operator_delete (p : ptr) : M heap unit := λ h,
  if bool_decide (p = nullptr) then (inr (), h)
  else match List.find (is_block p) (blocks h) with
       | Some b =>
           (inr (),
            set_objects (filter (λ kv, in_block kv.1 b = false))
              (set_blocks (List.filter (λ b', negb (is_block p b'))) h))
       | None => (inr (), fault h)
       end.

(** The [sizeof(T)] bytes at [p] lie inside a live block. *)
Definition in_bounds (p : ptr) (h : heap) : bool :=
  existsb (λ b, bool_decide (b.1 ≤ p ∧ p + sizeof T ≤ b.1 + b.2)) (blocks h).

(** [new (p) T(v)]: the object is recorded at [p]. Where the bytes at [p]
    lie in no live block the write has undefined behaviour: it is counted
    in [faults] and the object is recorded all the same, as on a machine
    where that memory is mapped. The theorems about arbitrary states take
    the writes to land in live blocks and conclude that [faults] has not
    moved. *)
Definition placement_new (p : ptr) (v : T) : M heap unit := λ h,
  let h' := set_objects <[p := v]> h in
  (inr (), if in_bounds p h then h' else fault h').

(** [p->~T()]. *)
Definition destroy_at (p : ptr) : M heap unit := λ h,
  match objects h !! p with
  | Some _ => (inr (), set_objects (delete p) h)
  | None => (inr (), fault h)
  end.

(** Move-construction of the object at [d] from the one at [s] (placement
    new from [std::move] of the source), which stays alive. Where [s] holds
    no object the value taken is indeterminate: no object is recorded at
    [d]. *)
Definition move_construct (s d : ptr) : M heap unit := λ h,
  match objects h !! s with
  | Some v => placement_new d v h
  | None => (inr (), fault (set_objects (delete d) h))
  end.

(** [std::uninitialized_move(first, first + count, d_first)]. *)
Definition uninitialized_move (first : ptr) (count : Z) (d_first : ptr)
  : M heap unit :=
  for_range count (λ i,
    move_construct (ptr_add T first i) (ptr_add T d_first i)).

(** What a reader of [*p] sees. *)
Definition load (p : ptr) (h : heap) : option T := objects h !! p.

(** The [bytes] bytes at [p] are addresses of the machine and lie inside a
    live block of the store. *)
Definition live_range (p : ptr) (bytes : Z) (h : heap) : Prop :=
  0 ≤ p ∧ p + bytes ≤ SIZE_MAX
  ∧ ∃ b, b ∈ blocks h ∧ b.1 ≤ p ∧ p + bytes ≤ b.1 + b.2.
End free_store.

Global Arguments heap T : clear implicits.

(** ** [template <typename T> class CustomAllocator] *)

Module CustomAllocator.
Section defs.
Context {T : Type} `{!Sized T}.

Record t : Type := mk {
  data_ : ptr;
  capacity_ : Z;
  used_ : Z
}.

Definition set_data_ (p : ptr) (a : t) := mk p (capacity_ a) (used_ a).
Definition set_capacity_ (c : Z) (a : t) := mk (data_ a) c (used_ a).
Definition set_used_ (u : Z) (a : t) := mk (data_ a) (capacity_ a) u.

Definition not_owned : string :=
  "Attempted to deallocate memory not owned by allocator".
Definition too_small : string :=
  "New capacity must be greater than the number of used elements".

(** [explicit CustomAllocator(size_t capacity = 10)]. *)
Definition new (capacity : Z) : M (heap T) t :=
  data <- operator_new (mul64 capacity (sizeof T));;
  ret (mk data capacity 0).

(** [CustomAllocator(const CustomAllocator<U>& other)]: the capacity of
    [other], a buffer of its own and nothing used. *)
Definition rebind_copy (other : t) : M (heap T) t :=
  data <- operator_new (mul64 (capacity_ other) (sizeof T));;
  ret (mk data (capacity_ other) 0).

Definition clear : M (t * heap T) unit :=
  a <- this;;
  when (bool_decide (data_ a ≠ nullptr))
    (for_range (used_ a) (λ i, on_heap (destroy_at (ptr_add T (data_ a) i)));;
     assign (set_used_ 0)).

Definition resize (new_capacity : Z) : M (t * heap T) unit :=
  a <- this;;
  if bool_decide (new_capacity ≤ used_ a)
  then throw (runtime_error too_small)
  else
    new_data <- on_heap (operator_new (mul64 new_capacity (sizeof T)));;
    on_heap (uninitialized_move (data_ a) (used_ a) new_data);;
    clear;;
    when (bool_decide (data_ a ≠ nullptr)) (on_heap (operator_delete (data_ a)));;
    assign (set_data_ new_data);;
    assign (set_capacity_ new_capacity).

Definition allocate (n : Z) : M (t * heap T) ptr :=
  a <- this;;
  when (bool_decide (add64 (used_ a) n > capacity_ a))
    (resize (Z.max (mul64 (capacity_ a) 2) (add64 (used_ a) n)));;
  a <- this;;
  let result := ptr_add T (data_ a) (used_ a) in
  assign (set_used_ (add64 (used_ a) n));;
  ret result.

Definition deallocate (p : ptr) (n : Z) : M (t * heap T) unit :=
  a <- this;;
  if bool_decide (p = nullptr) then ret ()
  else if bool_decide (p < data_ a)
          || bool_decide (p >= ptr_add T (data_ a) (capacity_ a))
  then throw (runtime_error not_owned)
  else ret ().

Definition construct (p : ptr) (v : T) : M (t * heap T) unit :=
  on_heap (placement_new p v).

Definition destroy (p : ptr) : M (t * heap T) unit :=
  on_heap (destroy_at p).

Definition operator_eq (a b : t) : bool := true.
Definition operator_ne (a b : t) : bool := false.

Definition capacity (a : t) : Z := capacity_ a.

(** [~CustomAllocator()]: the objects are destroyed, the buffer is kept. *)
Definition delete : M (t * heap T) unit := clear.

(** The data model's invariant, and the typing of the two counters. *)
Definition inv (a : t) : Prop := 0 ≤ used_ a ≤ capacity_ a.
Definition typed (a : t) : Prop :=
  is_size_t (capacity_ a) ∧ is_size_t (used_ a).

(** [p] lies in the address range [buffer, buffer + capacity). *)
Definition in_buffer (a : t) (p : ptr) : Prop :=
  data_ a ≤ p < ptr_add T (data_ a) (capacity_ a).

(** The buffer of [capacity_] slots fits the address space: the end
    pointer [data_ + capacity_] is computed without wrapping. *)
Definition addressable (a : t) : Prop :=
  0 ≤ data_ a
  ∧ 0 ≤ capacity_ a * sizeof T
  ∧ data_ a + capacity_ a * sizeof T ≤ SIZE_MAX.

(** The cursor a growth step leaves behind: [clear] resets it, unless the
    buffer is null. *)
Definition cursor_after_growth (a : t) : Z :=
  if bool_decide (data_ a ≠ nullptr) then 0 else used_ a.

(** [m] keeps [P]: from a state of [P] it ends in a state of [P], whether
    it returns or throws. *)
Definition preserves {R} (P : t → Prop) (m : M (t * heap T) R) : Prop :=
  ∀ a h r a' h', P a → m (a, h) = (r, (a', h')) → P a'.

(** The capacity [allocate(n)] asks [resize] for. *)
Definition growth_target (a : t) (n : Z) : Z :=
  Z.max (mul64 (capacity_ a) 2) (add64 (used_ a) n).
End defs.
End CustomAllocator.

(** ** The allocator interface of [CustomContainer]'s template parameter *)

(** What [CustomContainer<T, Allocator>] asks of [Allocator]: a default
    constructor, the four member functions it calls, and the destructor
    [~Allocator()] that runs when the member [alloc_] goes away. *)
Class Allocator (T : Type) `{!Sized T} (A : Type) : Type := {
  default : M (heap T) A;
  allocate : Z → M (A * heap T) ptr;
  deallocate : ptr → Z → M (A * heap T) unit;
  construct : ptr → T → M (A * heap T) unit;
  destroy : ptr → M (A * heap T) unit;
  dtor : M (A * heap T) unit
}.
Global Hint Mode Allocator - - ! : typeclass_instances.

Global Instance custom_allocator {T : Type} `{!Sized T}
  : Allocator T CustomAllocator.t := {
  default := CustomAllocator.new 10;
  allocate := CustomAllocator.allocate;
  deallocate := CustomAllocator.deallocate;
  construct := CustomAllocator.construct;
  destroy := CustomAllocator.destroy;
  dtor := CustomAllocator.delete
}.

(** ** [std::allocator<T>], the default of the template parameter *)

(** The standard library's allocator is not part of the repository. It is
    modelled after the C++ standard: stateless, [allocate(n)] obtains
    [n * sizeof(T)] bytes from [::operator new] (and throws
    [std::bad_array_new_length] when that product does not fit a [size_t]),
    [deallocate] hands the block to [::operator delete]. *)
Module StdAllocator.
Section defs.
Context {T : Type} `{!Sized T}.

Inductive t : Type := mk.

Definition allocate (n : Z) : M (t * heap T) ptr :=
  if bool_decide (n > SIZE_MAX `div` sizeof T)
  then throw bad_array_new_length
  else on_heap (operator_new (n * sizeof T)).

Definition deallocate (p : ptr) (n : Z) : M (t * heap T) unit :=
  on_heap (operator_delete p).

Definition construct (p : ptr) (v : T) : M (t * heap T) unit :=
  on_heap (placement_new p v).

Definition destroy (p : ptr) : M (t * heap T) unit :=
  on_heap (destroy_at p).
End defs.
End StdAllocator.

Global Instance std_allocator {T : Type} `{!Sized T}
  : Allocator T StdAllocator.t := {
  default := ret StdAllocator.mk;
  allocate := StdAllocator.allocate;
  deallocate := StdAllocator.deallocate;
  construct := StdAllocator.construct;
  destroy := StdAllocator.destroy;
  dtor := ret ()
}.

(** ** [template <typename T, typename Allocator> class CustomContainer] *)

Module CustomContainer.
Section defs.
Context {T : Type} `{!Sized T} {A : Type} `{!Allocator T A}.

(** The members, in their order of declaration. *)
Record t : Type := mk {
  alloc_ : A;
  data_ : ptr;
  size_ : Z;
  capacity_ : Z
}.

Definition set_alloc_ (a : A) (c : t) := mk a (data_ c) (size_ c) (capacity_ c).
Definition set_data_ (p : ptr) (c : t) := mk (alloc_ c) p (size_ c) (capacity_ c).
Definition set_size_ (n : Z) (c : t) := mk (alloc_ c) (data_ c) n (capacity_ c).
Definition set_capacity_ (n : Z) (c : t) := mk (alloc_ c) (data_ c) (size_ c) n.

(** A call [alloc_.f(...)]: [f] runs on the member [alloc_] and the free
    store; what it did to [alloc_] stays, also when it throws. *)
Definition with_alloc {R} (m : M (A * heap T) R) : M (t * heap T) R :=
  λ '(c, h), let '(r, (a, h')) := m (alloc_ c, h) in (r, (set_alloc_ a c, h')).

(** [explicit CustomContainer(size_t initial_capacity = 10)]. The members
    are initialised in declaration order: [alloc_] by its default
    constructor, [data_] by [alloc_.allocate(initial_capacity)], then
    [size_] and [capacity_]. When a step throws there is no container;
    when it is [allocate] that throws, the member [alloc_] has been
    constructed and its destructor runs before the exception leaves. *)
Definition new (initial_capacity : Z) : M (heap T) t :=
  a <- default;;
  λ h, match allocate initial_capacity (a, h) with
       | (inr p, (a', h')) => (inr (mk a' p 0 initial_capacity), h')
       | (inl e, s) => (inl e, (dtor s).2.2)
       end.

Definition clear : M (t * heap T) unit :=
  c <- this;;
  for_range (size_ c) (λ i, with_alloc (destroy (ptr_add T (data_ c) i)));;
  assign (set_size_ 0).

Definition resize (new_capacity : Z) : M (t * heap T) unit :=
  c <- this;;
  new_data <- with_alloc (allocate new_capacity);;
  on_heap (uninitialized_move (data_ c) (size_ c) new_data);;
  clear;;
  with_alloc (deallocate (data_ c) (capacity_ c));;
  assign (set_data_ new_data);;
  assign (set_capacity_ new_capacity).

Definition push_back (value : T) : M (t * heap T) unit :=
  c <- this;;
  when (bool_decide (size_ c = capacity_ c))
    (resize (mul64 (capacity_ c) 2));;
  c <- this;;
  with_alloc (construct (ptr_add T (data_ c) (size_ c)) value);;
  assign (set_size_ (add64 (size_ c) 1)).

Definition begin (c : t) : ptr := data_ c.
Definition end_ (c : t) : ptr := ptr_add T (data_ c) (size_ c).
Definition size (c : t) : Z := size_ c.
Definition empty (c : t) : bool := bool_decide (size_ c = 0).

(** [for (const auto& value : c)]: what is read at [begin()],
    [begin() + 1], ... up to [end()]. *)
Definition iterate (c : t) (h : heap T) : list (option T) :=
  (λ i, load (ptr_add T (begin c) i) h) <$> seqZ 0 (size c).

(** [for (const T& v : vs) c.push_back(v)]. *)
Definition push_all (vs : list T) : M (t * heap T) unit :=
  foldr (λ v k, push_back v ;; k) (ret ()) vs.

(** [~CustomContainer()]: the body, and after it the destructor of the
    member [alloc_]. The destructor is [noexcept]: an exception of the
    body does not leave it, the program is terminated at that point and
    the member is not destroyed. *)
Definition delete : t * heap T → completion * (t * heap T) :=
  noexcept
    (clear;;
     c <- this;;
     with_alloc (deallocate (data_ c) (capacity_ c));;
     with_alloc dtor).
End defs.
Global Arguments t A : clear implicits.
End CustomContainer.

(** ** [int] elements and the runs of [main] *)

Global Instance int_sized : Sized Z := 4.

(** An empty free store, large enough for the runs below. *)
Definition heap0 : heap Z := empty_heap 4096 1052672.

(** [for (int i = 0; i < n; ++i) c.push_back(i)]. *)
Definition push_ints {A : Type} `{!Allocator Z A} (n : Z)
  : M (CustomContainer.t A * heap Z) unit :=
  for_range n (λ i, CustomContainer.push_back i).

(** Construct a container and run [m] on it. *)
Definition with_container {A : Type} `{!Allocator Z A} {R}
    (initial_capacity : Z) (m : M (CustomContainer.t A * heap Z) R)
  : heap Z → (exn + R) * option (CustomContainer.t A) * heap Z :=
  λ h, match CustomContainer.new initial_capacity h with
       | (inr c, h') => let '(r, (c', h'')) := m (c, h') in (r, Some c', h'')
       | (inl e, h') => (inl e, None, h')
       end.

(** [CustomContainer<int, CustomAllocator<int>> c(10)] on the empty store:
    the allocator's buffer of 10 slots, all of them handed to the container. *)
Definition arena_container : CustomContainer.t CustomAllocator.t * heap Z :=
  (CustomContainer.mk (CustomAllocator.mk 4096 10 10) 4096 0 10,
   Heap [(4096, 40)] ∅ 4136 1052672 0).

(** The same container after [push_back(0)], ..., [push_back(9)]. *)
Definition arena_container_full
  : CustomContainer.t CustomAllocator.t * heap Z :=
  (push_ints 10 arena_container).2.

(** What a caller can see of a run: its outcome, and the container's
    [size()], its capacity and the values an iteration reads. *)
Definition observe {A : Type} `{!Allocator Z A} {R}
    (x : (exn + R) * option (CustomContainer.t A) * heap Z)
  : option ((exn + R) * Z * Z * list (option Z)) :=
  match x with
  | (r, Some c, h) =>
      Some (r, CustomContainer.size c, CustomContainer.capacity_ c,
            CustomContainer.iterate c h)
  | (_, None, _) => None
  end.

(** [CustomAllocator<int> a(10)] on the empty store. *)
Definition arena : CustomAllocator.t * heap Z :=
  (CustomAllocator.mk 4096 10 0, Heap [(4096, 40)] ∅ 4136 1052672 0).

(** The same arena after [a.allocate(10)]: every slot is handed out. *)
Definition arena_full : CustomAllocator.t * heap Z :=
  (CustomAllocator.mk 4096 10 10, arena.2).

(** The full arena after [a.allocate(2^62)]: the capacity asked of
    [resize] is 2^62 + 10 slots, whose size in bytes wraps to 40. *)
Definition arena_overflowed : CustomAllocator.t * heap Z :=
  (CustomAllocator.allocate (2 ^ 62) arena_full).2.

(** The same arena with the cursor at 5. *)
Definition arena_half : CustomAllocator.t * heap Z :=
  (CustomAllocator.mk 4096 10 5, arena.2).

(** [for (i = 0; i < n; ++i) a.construct(p + i, 100 + i)]. *)
Definition fill_ints (p : ptr) (n : Z) : M (CustomAllocator.t * heap Z) unit :=
  for_range n (λ i, CustomAllocator.construct (ptr_add Z p i) (100 + i)).

(** The state after [p = a.allocate(10)] and the construction of
    100, 101, ..., 109 in the ten slots at [p]. *)
Definition arena_filled : CustomAllocator.t * heap Z :=
  ((p <- CustomAllocator.allocate 10;; fill_ints p 10) arena).2.

(** ** [int factorial(int n)] *)

(** [int] is a 32-bit signed integer. A product that leaves its range has
    undefined behaviour: the model has no result for it. *)
Definition INT_MAX : Z := 2 ^ 31 - 1.
Definition INT_MIN : Z := - 2 ^ 31.

Definition is_int (x : Z) : Prop := INT_MIN ≤ x ≤ INT_MAX.

(** [1 * 2 * ... * n], the factorial of [n] as a number. *)
Definition product_up_to (n : Z) : Z := foldr Z.mul 1 (seqZ 1 n).

Definition mul_int (x y : Z) : option Z :=
  if bool_decide (is_int (x * y)) then Some (x * y) else None.

Equations factorial (n : Z) : option Z by wf (Z.to_nat n) lt :=
  factorial n with decide (n ≤ 1) := {
    | left _ => Some 1
    | right _ => r ← factorial (n - 1); mul_int n r
  }.
Next Obligation. lia. Qed.

(** Every live block ends at or below [brk]: the store hands out
    addresses upwards and never twice. *)
Definition below_brk {T : Type} (h : heap T) : Prop :=
  Forall (λ b, b.1 + b.2 ≤ brk h) (blocks h).

(** The full arena on a store with 14 bytes left. *)
Definition arena_tight : CustomAllocator.t * heap Z :=
  (CustomAllocator.mk 4096 10 10, Heap [(4096, 40)] ∅ 4136 4150 0).

(** [CustomContainer<int, CustomAllocator<int>> c(2)] on the empty store,
    after [push_back(0)] and [push_back(1)]: full, in an arena with room. *)
Definition arena_container_small
  : CustomContainer.t CustomAllocator.t * heap Z :=
  (push_ints 2
     (CustomContainer.mk (CustomAllocator.mk 4096 10 2) 4096 0 2,
      Heap [(4096, 40)] ∅ 4136 1052672 0)).2.

(** [CustomContainer<int, CustomAllocator<int>> c(0)] on the empty store. *)
Definition arena_container_zero
  : CustomContainer.t CustomAllocator.t * heap Z :=
  (CustomContainer.mk (CustomAllocator.mk 4096 10 0) 4096 0 0,
   Heap [(4096, 40)] ∅ 4136 1052672 0).

(** * Theorems *)

(** ** Pointer arithmetic *)

Section pointers.
Context {T : Type} `{!Sized T}.

Lemma wrap_small x : 0 ≤ x ≤ SIZE_MAX → wrap x = x.
Proof. intros. unfold wrap. apply Z.mod_small. unfold SIZE_MAX in *. lia. Qed.

Lemma wrap_add_l x y : wrap (wrap x + y) = wrap (x + y).
Proof. unfold wrap. by rewrite Zplus_mod_idemp_l. Qed.

(** Inside the address space pointer arithmetic is exact. *)
Lemma ptr_add_exact p i :
  0 ≤ p + i * sizeof T ≤ SIZE_MAX → ptr_add T p i = p + i * sizeof T.
Proof. apply wrap_small. Qed.

Lemma ptr_add_0 p : 0 ≤ p ≤ SIZE_MAX → ptr_add T p 0 = p.
Proof. intros. rewrite ptr_add_exact; lia. Qed.

(** The slots of an array inside the address space are distinct. *)
Lemma slots_distinct p m i j :
  0 < sizeof T → 0 ≤ p → p + m * sizeof T ≤ SIZE_MAX →
  0 ≤ i < m → 0 ≤ j < m → i ≠ j → ptr_add T p i ≠ ptr_add T p j.
Proof.
  intros ?????? Heq. rewrite !ptr_add_exact in Heq by nia. nia.
Qed.

Lemma ptr_add_assoc p i j : ptr_add T (ptr_add T p i) j = ptr_add T p (i + j).
Proof.
  unfold ptr_add. rewrite wrap_add_l. f_equal. lia.
Qed.
End pointers.

(** ** Loops and the free store never throw *)

Section loops.
Context {T : Type} `{!Sized T}.

Lemma for_range_total {S} (n : Z) (body : Z → M S unit) :
  (∀ i, total (body i)) → total (for_range n body).
Proof.
  intros Hbody. unfold for_range.
  induction (seqZ 0 n) as [|i l IH]; intros s; simpl.
  - by eexists.
  - unfold bind at 1. destruct (Hbody i s) as [s1 ->]. apply IH.
Qed.

Lemma for_range_on_heap {O} (n : Z) (f : Z → M (heap T) unit) :
  (∀ i, total (f i)) →
  ∀ (o : O) h, ∃ h', for_range n (λ i, on_heap (f i)) (o, h) = (inr (), (o, h')).
Proof.
  intros Hf o. unfold for_range.
  induction (seqZ 0 n) as [|i l IH]; intros h; simpl.
  - by eexists.
  - unfold bind at 1, on_heap at 1.
    destruct (Hf i h) as [h1 ->]. apply IH.
Qed.

Lemma placement_new_total p (v : T) : total (placement_new p v).
Proof. intros h. by eexists. Qed.

Lemma destroy_at_total p : total (destroy_at (T:=T) p).
Proof. intros h. unfold destroy_at. destruct (objects h !! p); by eexists. Qed.

Lemma move_construct_total s d : total (move_construct (T:=T) s d).
Proof.
  intros h. unfold move_construct.
  destruct (objects h !! s); [apply placement_new_total | by eexists].
Qed.

Lemma operator_delete_total p : total (operator_delete (T:=T) p).
Proof.
  intros h. unfold operator_delete.
  case_bool_decide; [by eexists|].
  destruct (List.find _ _); by eexists.
Qed.

Lemma uninitialized_move_total first count d_first :
  total (uninitialized_move (T:=T) first count d_first).
Proof. apply for_range_total. intros i. apply move_construct_total. Qed.

(** [::operator new] either throws [std::bad_alloc] and leaves the store
    as it was, or returns the address [brk]. *)
Lemma operator_new_cases bytes (h : heap T) :
  operator_new bytes h = (inl bad_alloc, h)
  ∨ ∃ h', operator_new bytes h = (inr (brk h), h') ∧ brk h < brk h'.
Proof.
  unfold operator_new. case_bool_decide; [right | by left].
  eexists. split; [done|]. simpl. lia.
Qed.

(** A block the store has handed out lies inside the address space. *)
Lemma operator_new_inv bytes (h : heap T) p h' :
  operator_new bytes h = (inr p, h') →
  p = brk h ∧ brk h + Z.max bytes 1 ≤ SIZE_MAX
  ∧ blocks h' = (brk h, bytes) :: blocks h
  ∧ objects h' = objects h
  ∧ brk h' = brk h + Z.max bytes 1
  ∧ faults h' = faults h.
Proof.
  unfold operator_new, limit. case_bool_decide; [|done].
  intros; simplify_eq. simpl. split_and!; try done. lia.
Qed.
End loops.

(** ** The arena allocator *)

Module AllocatorTheory.
Import CustomAllocator.

Section allocator.
Context {T : Type} `{!Sized T}.
Implicit Types (a : t) (h : heap T) (n : Z) (p : ptr).

Lemma clear_spec a h :
  ∃ h', clear (a, h) =
        (inr (), (if bool_decide (data_ a ≠ nullptr) then set_used_ 0 a else a, h')).
Proof.
  unfold clear, bind, this, when. case_bool_decide; [|by eexists].
  destruct (for_range_on_heap (used_ a)
              (λ i, destroy_at (ptr_add T (data_ a) i))
              (λ i, destroy_at_total _) a h) as [h' ->].
  by eexists.
Qed.

Lemma resize_too_small nc a h :
  nc ≤ used_ a → resize nc (a, h) = (inl (runtime_error too_small), (a, h)).
Proof. intros. unfold resize, bind, this. by rewrite bool_decide_true. Qed.

Lemma resize_bad_alloc nc a h e h' :
  used_ a < nc →
  operator_new (mul64 nc (sizeof T)) h = (inl e, h') →
  resize nc (a, h) = (inl e, (a, h')).
Proof.
  intros ? E. unfold resize, bind, this, on_heap at 1.
  rewrite bool_decide_false by lia. by rewrite E.
Qed.

Lemma resize_ok nc a h p h1 :
  used_ a < nc →
  operator_new (mul64 nc (sizeof T)) h = (inr p, h1) →
  ∃ h2, resize nc (a, h) = (inr (), (mk p nc (cursor_after_growth a), h2)).
Proof.
  intros ? E. unfold resize, bind, this, on_heap at 1.
  rewrite bool_decide_false by lia. rewrite E.
  unfold on_heap at 1.
  destruct (uninitialized_move_total (data_ a) (used_ a) p h1) as [h2 ->].
  destruct (clear_spec a h2) as [h3 ->].
  unfold when, cursor_after_growth. case_bool_decide.
  - unfold on_heap. destruct (operator_delete_total (data_ a) h3) as [h4 ->].
    by eexists.
  - by eexists.
Qed.

(** [allocate] without growth: the bump alone. *)
Lemma allocate_fits a n h :
  add64 (used_ a) n ≤ capacity_ a →
  allocate n (a, h) =
    (inr (ptr_add T (data_ a) (used_ a)), (set_used_ (add64 (used_ a) n) a, h)).
Proof.
  intros. unfold allocate, bind, this, when.
  by rewrite bool_decide_false by lia.
Qed.

(** [allocate] in full: it fits; or the growth step throws and nothing has
    changed; or the buffer is replaced by the fresh block at [brk]. *)
Lemma allocate_cases a n h :
  (add64 (used_ a) n ≤ capacity_ a
   ∧ allocate n (a, h) =
       (inr (ptr_add T (data_ a) (used_ a)),
        (set_used_ (add64 (used_ a) n) a, h)))
  ∨ (capacity_ a < add64 (used_ a) n
     ∧ ∃ e, allocate n (a, h) = (inl e, (a, h)))
  ∨ (capacity_ a < add64 (used_ a) n
     ∧ used_ a < growth_target a n
     ∧ ∃ h', allocate n (a, h) =
               (inr (ptr_add T (brk h) (cursor_after_growth a)),
                (mk (brk h) (growth_target a n)
                    (add64 (cursor_after_growth a) n), h'))).
Proof.
  destruct (decide (add64 (used_ a) n ≤ capacity_ a)) as [Hfit|Hgrow].
  { left. split; [done|]. by apply allocate_fits. }
  right.
  assert (allocate n (a, h) =
          (resize (growth_target a n);;
           a' <- this;;
           assign (set_used_ (add64 (used_ a') n));;
           ret (ptr_add T (data_ a') (used_ a'))) (a, h)) as ->.
  { unfold allocate, bind at 1, this at 1, when.
    by rewrite bool_decide_true by lia. }
  destruct (decide (growth_target a n ≤ used_ a)) as [Hsmall|Hbig].
  { left. split; [lia|]. eexists. unfold bind at 1.
    by rewrite resize_too_small. }
  assert (used_ a < growth_target a n) as Hlt by lia.
  destruct (operator_new_cases (mul64 (growth_target a n) (sizeof T)) h)
    as [E|(h1 & E & Hbrk)].
  - left. split; [lia|]. eexists. unfold bind at 1.
    by rewrite (resize_bad_alloc _ _ _ _ _ Hlt E).
  - right. split; [lia|]. split; [lia|].
    destruct (resize_ok _ _ _ _ _ Hlt E) as [h2 E2].
    exists h2. unfold bind at 1. by rewrite E2.
Qed.

(** In a state that satisfies the invariant, a request whose sum with the
    cursor wraps around fits the wrapped test: no growth is attempted. *)
Lemma growth_does_not_wrap a n :
  typed a → inv a → is_size_t n →
  capacity_ a < add64 (used_ a) n →
  add64 (used_ a) n = used_ a + n.
Proof.
  unfold typed, inv, is_size_t, SIZE_MAX, add64, wrap.
  intros [[] []] [] [] Hgrow.
  destruct (decide (used_ a + n < 2 ^ 64)) as [|Hwrap].
  - rewrite Z.mod_small in * by lia. done.
  - exfalso.
    assert ((used_ a + n) `mod` 2 ^ 64 = used_ a + n - 2 ^ 64) as E.
    { symmetry. apply (Z.mod_unique_pos _ _ 1); lia. }
    lia.
Qed.

Lemma add64_typed x y : is_size_t (add64 x y).
Proof.
  unfold is_size_t, SIZE_MAX, add64, wrap.
  pose proof (Z.mod_pos_bound (x + y) (2 ^ 64)). lia.
Qed.

Lemma mul64_typed x y : is_size_t (mul64 x y).
Proof.
  unfold is_size_t, SIZE_MAX, mul64, wrap.
  pose proof (Z.mod_pos_bound (x * y) (2 ^ 64)). lia.
Qed.

Lemma add64_0_l n : is_size_t n → add64 0 n = n.
Proof.
  unfold is_size_t, SIZE_MAX, add64, wrap. intros.
  rewrite Z.add_0_l. apply Z.mod_small. lia.
Qed.

Lemma growth_target_typed a n : is_size_t (growth_target a n).
Proof.
  unfold growth_target.
  pose proof (mul64_typed (capacity_ a) 2).
  pose proof (add64_typed (used_ a) n).
  unfold is_size_t in *. lia.
Qed.

(** C9. Any two allocators of one element type compare equal:
    [operator==] answers [true] and [operator!=] answers [false], whatever
    their buffers, capacities and cursors. *)
Theorem operator_eq_always a b :
  operator_eq a b = true ∧ operator_ne a b = false.
Proof. done. Qed.

(** C7. [deallocate(p, n)] leaves the allocator state entirely unchanged:
    whatever the pointer and whatever the outcome, the allocator ([data_],
    [capacity_], [used_]: the cursor is not decremented) and the free store
    after the call are those before it; and for [p] inside the current
    buffer, as the code's own range test computes it, the call returns
    normally. *)
Theorem deallocate_in_buffer_keeps_state a p n h :
  (∀ r s, deallocate (T:=T) p n (a, h) = (r, s) → s = (a, h))
  ∧ (in_buffer (T:=T) a p → deallocate (T:=T) p n (a, h) = (inr (), (a, h))).
Proof.
  split.
  - unfold deallocate, bind, this, ret, throw. intros r s.
    case_bool_decide; [intros; by simplify_eq|].
    destruct (_ || _); intros; by simplify_eq.
  - unfold in_buffer. intros [Hlo Hhi].
    unfold deallocate, bind, this.
    case_bool_decide; [done|].
    rewrite bool_decide_false by lia.
    by rewrite bool_decide_false by lia.
Qed.

(** C10. [deallocate(nullptr, n)] returns normally and changes nothing, in
    every allocator state and for every [n]; when the buffer is not null,
    the null pointer lies outside the buffer's address range. *)
Theorem deallocate_nullptr_returns a n h :
  deallocate (T:=T) nullptr n (a, h) = (inr (), (a, h))
  ∧ (nullptr < data_ a → ¬ in_buffer (T:=T) a nullptr).
Proof.
  split; [done|]. unfold in_buffer. lia.
Qed.

(** C4, as amended. [deallocate(p, n)] throws the ownership error exactly
    when [p] is not null and lies outside [buffer, buffer + capacity), the
    end of the range being the pointer [data_ + capacity_] as the code
    computes it; it returns normally exactly when [p] is null or inside
    that range. In both cases the state is left as it was. Whenever the
    buffer of [capacity_] slots fits the address space, the range is the
    mathematical one, from [data_] to [data_ + capacity_ * sizeof(T)]. *)
Theorem deallocate_throws_iff a p n h :
  (deallocate (T:=T) p n (a, h) = (inl (runtime_error not_owned), (a, h))
     ↔ p ≠ nullptr ∧ ¬ in_buffer (T:=T) a p)
  ∧ (deallocate (T:=T) p n (a, h) = (inr (), (a, h))
     ↔ p = nullptr ∨ in_buffer (T:=T) a p)
  ∧ (addressable (T:=T) a →
     (in_buffer (T:=T) a p ↔ data_ a ≤ p < data_ a + capacity_ a * sizeof T)).
Proof.
  split_and!.
  - unfold in_buffer, deallocate, bind, this.
    case_bool_decide as Hnull.
    { split; [done|]. intros []; done. }
    destruct (decide (data_ a ≤ p < ptr_add T (data_ a) (capacity_ a)))
      as [Hin|Hout].
    + rewrite bool_decide_false by lia. rewrite bool_decide_false by lia.
      split; [done|]. intros []; done.
    + assert (bool_decide (p < data_ a)
              || bool_decide (p >= ptr_add T (data_ a) (capacity_ a)) = true)
        as ->.
      { apply orb_true_iff. rewrite !bool_decide_eq_true. lia. }
      done.
  - unfold in_buffer, deallocate, bind, this.
    case_bool_decide as Hnull.
    { split; [by left|done]. }
    destruct (decide (data_ a ≤ p < ptr_add T (data_ a) (capacity_ a)))
      as [Hin|Hout].
    + rewrite bool_decide_false by lia. rewrite bool_decide_false by lia.
      split; [by right|done].
    + assert (bool_decide (p < data_ a)
              || bool_decide (p >= ptr_add T (data_ a) (capacity_ a)) = true)
        as ->.
      { apply orb_true_iff. rewrite !bool_decide_eq_true. lia. }
      split; [done|]. intros []; done.
  - intros (Hdata & Hpos & Hend). unfold in_buffer.
    by rewrite ptr_add_exact by lia.
Qed.

(** Where nothing wraps and the request fits, [allocate] does what the
    data model says: the cursor advances by exactly [n] and the range
    handed out lies inside the buffer. *)
Lemma allocate_fits_range a n h :
  0 ≤ sizeof T → 0 ≤ used_ a → 0 ≤ n →
  used_ a + n ≤ capacity_ a → capacity_ a ≤ SIZE_MAX →
  addressable (T:=T) a →
  ∃ p a', allocate (T:=T) n (a, h) = (inr p, (a', h))
          ∧ used_ a' = used_ a + n
          ∧ data_ a' = data_ a ∧ capacity_ a' = capacity_ a
          ∧ data_ a' ≤ p
          ∧ ptr_add T p n ≤ ptr_add T (data_ a') (capacity_ a').
Proof.
  intros Hsz Hused Hn Hfit Hmax (Hdata & Hpos & Hend).
  assert (add64 (used_ a) n = used_ a + n) as Hsum.
  { unfold add64, wrap. apply Z.mod_small. unfold SIZE_MAX in *. lia. }
  eexists _, _. split; [apply allocate_fits; lia|].
  rewrite Hsum. simpl. rewrite ptr_add_assoc.
  rewrite !ptr_add_exact by nia. split_and!; try done; nia.
Qed.

(** An [allocate] that throws has changed nothing. *)
Lemma allocate_throws_keeps_state a n h e a' h' :
  allocate (T:=T) n (a, h) = (inl e, (a', h')) → a' = a ∧ h' = h.
Proof.
  intros E.
  destruct (allocate_cases a n h)
    as [[Hfit E']|[[Hgrow [e' E']]|(Hgrow & Hlt & h2 & E')]];
    rewrite E' in E; by simplify_eq.
Qed.

(** An [allocate] that grew has taken the fresh block at [brk] as its
    buffer, with the capacity it asked [resize] for. *)
Lemma allocate_growth_buffer a n h p a' h' :
  capacity_ a < add64 (used_ a) n →
  allocate (T:=T) n (a, h) = (inr p, (a', h')) →
  data_ a' = brk h ∧ capacity_ a' = growth_target a n.
Proof.
  intros Hgrow E.
  destruct (allocate_cases a n h)
    as [[Hfit E']|[[_ [e E']]|(_ & Hlt & h2 & E')]];
    rewrite E' in E; simplify_eq; [lia|done].
Qed.

(** C5, as amended. With the sum [used_ + n] and the product
    [capacity_ * 2] taken in [size_t] arithmetic (modulo 2^64):
    [allocate(n)] grows exactly when the sum exceeds [capacity_]. When it
    grows and returns, the new capacity is the maximum of the product and
    the sum, computed from the values before the call, it is larger than
    the old one, and the buffer is a fresh block; when the growth step
    throws, allocator and store are as before. Without growth the call
    returns [data_ + used_], only the cursor moves, and buffer, capacity
    and store are untouched. *)
Theorem allocate_growth_rule a n h r a' h' :
  allocate (T:=T) n (a, h) = (r, (a', h')) →
  if bool_decide (capacity_ a < add64 (used_ a) n)
  then match r with
       | inr p =>
           capacity_ a' = Z.max (mul64 (capacity_ a) 2) (add64 (used_ a) n)
           ∧ capacity_ a < capacity_ a'
           ∧ data_ a' = brk h
       | inl e => a' = a ∧ h' = h
       end
  else r = inr (ptr_add T (data_ a) (used_ a))
       ∧ a' = set_used_ (add64 (used_ a) n) a
       ∧ h' = h.
Proof.
  intros E.
  destruct (allocate_cases a n h)
    as [[Hfit E']|[[Hgrow [e E']]|(Hgrow & Hlt & h2 & E')]];
    rewrite E' in E; simplify_eq.
  - by rewrite bool_decide_false by lia.
  - by rewrite bool_decide_true by lia.
  - rewrite bool_decide_true by lia. simpl.
    unfold growth_target in *. split; [done|]. split; [lia|done].
Qed.

(** The cursor after an [allocate] that grew: the growth step has reset it,
    so it is [n] and not the old cursor plus [n]; the pointer returned is
    the start of the new buffer. *)
Lemma allocate_growth_cursor a n h p a' h' :
  capacity_ a < add64 (used_ a) n →
  allocate (T:=T) n (a, h) = (inr p, (a', h')) →
  used_ a' = add64 (cursor_after_growth a) n
  ∧ p = ptr_add T (data_ a') (cursor_after_growth a).
Proof.
  intros Hgrow E.
  destruct (allocate_cases a n h)
    as [[Hfit E']|[[_ [e E']]|(_ & Hlt & h2 & E')]];
    rewrite E' in E; simplify_eq; [lia|done].
Qed.

Lemma resize_preserves_inv nc : preserves inv (resize (T:=T) nc).
Proof.
  intros a h r a' h' Hinv E.
  destruct (decide (nc ≤ used_ a)) as [Hsmall|Hbig].
  { rewrite resize_too_small in E by done. by simplify_eq. }
  assert (used_ a < nc) as Hlt by lia.
  destruct (operator_new_cases (mul64 nc (sizeof T)) h) as [N|(h1 & N & _)].
  - rewrite (resize_bad_alloc _ _ _ _ _ Hlt N) in E. by simplify_eq.
  - destruct (resize_ok _ _ _ _ _ Hlt N) as [h2 E2].
    rewrite E2 in E. simplify_eq.
    unfold inv, cursor_after_growth in *. simpl.
    case_bool_decide; lia.
Qed.

Lemma allocate_preserves_inv n :
  is_size_t n → preserves inv (allocate (T:=T) n).
Proof.
  intros Hn a h r a' h' Hinv E.
  pose proof (add64_typed (used_ a) n) as Hsum.
  destruct (allocate_cases a n h)
    as [[Hfit E']|[[Hgrow [e E']]|(Hgrow & Hlt & h2 & E')]];
    rewrite E' in E; simplify_eq.
  - unfold inv, is_size_t in *. simpl. lia.
  - done.
  - assert (typed a) as Htyped.
    { unfold typed, inv, is_size_t in *. lia. }
    pose proof (growth_does_not_wrap a n Htyped Hinv Hn Hgrow) as Hsum'.
    pose proof (add64_typed (cursor_after_growth a) n) as Hcur.
    unfold inv, growth_target, cursor_after_growth, is_size_t in *. simpl.
    case_bool_decide; [rewrite add64_0_l in * by done|]; lia.
Qed.

Lemma deallocate_keeps_state p n a h r a' h' :
  deallocate (T:=T) p n (a, h) = (r, (a', h')) → a' = a ∧ h' = h.
Proof.
  unfold deallocate, bind, this, ret, throw.
  case_bool_decide; [intros; by simplify_eq|].
  destruct (_ || _); intros; by simplify_eq.
Qed.

Lemma on_heap_keeps_object {R} (m : M (heap T) R) a h r a' h' :
  on_heap m (a, h) = (r, (a', h')) → a' = a.
Proof. unfold on_heap. destruct (m h). intros; by simplify_eq. Qed.

(** C8. The invariant [0 <= used_ <= capacity_] holds for a freshly
    constructed allocator, and [allocate], [deallocate], [construct],
    [destroy] and the internal growth step [resize] each end in a state
    that satisfies it when they start in one, whether they return or
    throw (the sizes passed are [size_t] values). *)
Theorem invariant_preserved :
  (∀ capacity h a h',
      is_size_t capacity → new (T:=T) capacity h = (inr a, h') → inv a)
  ∧ (∀ other h a h',
      is_size_t (capacity_ other) →
      rebind_copy (T:=T) other h = (inr a, h') → inv a)
  ∧ (∀ n, is_size_t n → preserves inv (allocate (T:=T) n))
  ∧ (∀ p n, preserves inv (deallocate (T:=T) p n))
  ∧ (∀ p v, preserves inv (construct (T:=T) p v))
  ∧ (∀ p, preserves inv (destroy (T:=T) p))
  ∧ (∀ new_capacity, preserves inv (resize (T:=T) new_capacity)).
Proof.
  split_and!.
  - intros capacity h a h' Hc. unfold new, bind, ret.
    destruct (operator_new _ h) as [[e|p] h1]; intros; simplify_eq.
    unfold inv, is_size_t in *. simpl. lia.
  - intros other h a h' Hc. unfold rebind_copy, bind, ret.
    destruct (operator_new _ h) as [[e|p] h1]; intros; simplify_eq.
    unfold inv, is_size_t in *. simpl. lia.
  - apply allocate_preserves_inv.
  - intros p n a h r a' h' Hinv E.
    by destruct (deallocate_keeps_state _ _ _ _ _ _ _ E) as [-> _].
  - intros p v a h r a' h' Hinv E.
    by rewrite (on_heap_keeps_object _ _ _ _ _ _ E).
  - intros p a h r a' h' Hinv E.
    by rewrite (on_heap_keeps_object _ _ _ _ _ _ E).
  - apply resize_preserves_inv.
Qed.
End allocator.

Lemma arena_constructed : new 10 heap0 = (inr arena.1, arena.2).
Proof. vm_compute. reflexivity. Qed.

Lemma arena_full_reached : allocate 10 arena = (inr 4096, arena_full).
Proof. vm_compute. reflexivity. Qed.

(** [deallocate] on the full arena of [int]s: inside the buffer it
    returns; outside it throws; the state is the same after both. *)
Lemma deallocate_in_buffer_keeps_state_witness :
  deallocate 4100 1 arena_full = (inr (), arena_full)
  ∧ (deallocate 9000 1 arena_full).2 = arena_full.
Proof.
  split.
  - apply (deallocate_in_buffer_keeps_state (T:=Z) arena_full.1 4100 1
             arena_full.2).
    vm_compute. split; [discriminate|reflexivity].
  - apply (proj1 (deallocate_in_buffer_keeps_state (T:=Z) arena_full.1 9000 1
                    arena_full.2) (deallocate 9000 1 arena_full).1).
    symmetry. apply surjective_pairing.
Defined.

(** C4, the claim as stated fails. The null pointer lies outside the buffer
    of the fresh arena, and [deallocate] accepts it without an error. And
    in the arena left by [allocate(2^62)], whose 2^62 + 10 slots are backed
    by 40 bytes, the pointer [data_ + 40] lies inside the range from
    [data_] to [data_ + capacity_ * sizeof(int)], and [deallocate] throws
    the ownership error on it: the end pointer the code compares with has
    wrapped to [data_ + 40]. *)
Lemma deallocate_nullptr_outside_buffer_accepted :
  ((¬ in_buffer (T:=Z) arena.1 nullptr)
   ∧ deallocate nullptr 10 arena = (inr (), arena))
  ∧ (capacity_ arena_overflowed.1 = 2 ^ 62 + 10
     ∧ data_ arena_overflowed.1 ≤ 4176
         < data_ arena_overflowed.1
           + capacity_ arena_overflowed.1 * sizeof Z
     ∧ deallocate 4176 1 arena_overflowed
       = (inl (runtime_error not_owned), arena_overflowed)).
Proof.
  split.
  - split; [|done]. vm_compute. intros [Habs _]. by apply Habs.
  - split; [vm_compute; reflexivity|]. split.
    + vm_compute. split; [discriminate|reflexivity].
    + vm_compute. reflexivity.
Qed.

(** [deallocate(nullptr, 3)] on the full arena, whose buffer is not null. *)
Lemma deallocate_nullptr_returns_witness :
  deallocate nullptr 3 arena_full = (inr (), arena_full)
  ∧ ¬ in_buffer (T:=Z) arena_full.1 nullptr.
Proof.
  destruct (deallocate_nullptr_returns (T:=Z) arena_full.1 3 arena_full.2)
    as [Hret Hout].
  split; [exact Hret|]. apply Hout. unfold nullptr, arena_full. simpl. lia.
Defined.

(** C5, the claim as stated fails: with the cursor at 5 of 10 slots and a
    request of [SIZE_MAX] slots, [used + n] exceeds the capacity, but the
    sum wraps to 4: [allocate] does not grow, returns [data_ + 5] and moves
    the cursor back to 4. *)
Lemma allocate_wrapped_sum_no_growth :
  used_ arena_half.1 + SIZE_MAX > capacity_ arena_half.1
  ∧ allocate SIZE_MAX arena_half
    = (inr (ptr_add Z 4096 5), (mk 4096 10 4, arena_half.2)).
Proof. split; [done|]. vm_compute. reflexivity. Qed.

Lemma pair_eta3 {X Y W} (x : X * (Y * W)) : x = (x.1, (x.2.1, x.2.2)).
Proof. by destruct x as [? []]. Qed.

(** The growth rule at a full arena of 10 slots and a request of 1. *)
Lemma allocate_growth_rule_witness :
  capacity_ (allocate (T:=Z) 1 arena_full).2.1 = 20
  ∧ data_ (allocate (T:=Z) 1 arena_full).2.1 = brk arena_full.2.
Proof.
  pose proof (allocate_growth_rule (T:=Z) arena_full.1 1 arena_full.2 _ _ _
                (pair_eta3 _)) as H.
  vm_compute in H. vm_compute. destruct H as (Hcap & _ & Hdata).
  split; [exact Hcap | exact Hdata].
Defined.

(** The invariant after a growing [allocate(1)] on the full arena. *)
Lemma invariant_preserved_witness :
  inv arena_full.1 ∧ inv (allocate (T:=Z) 1 arena_full).2.1.
Proof.
  assert (inv arena_full.1) as Hinv by (unfold inv; simpl; lia).
  split; [exact Hinv|].
  destruct (invariant_preserved (T:=Z)) as (_ & _ & Halloc & _).
  refine (Halloc 1 _ arena_full.1 arena_full.2 _ _ _ Hinv (pair_eta3 _)).
  unfold is_size_t, SIZE_MAX. lia.
Defined.

(** C1, at a failing input. The arena of 10 slots is full ([used_] is 10) and
    holds 100, ..., 109. [allocate(1)] grows to 20 slots and returns with
    [used_] at 1, not at 11; the pointer it returns is the first slot of the
    new buffer, where the relocated object 100 lives. *)
Theorem allocate_after_growth_forgets_cursor :
  used_ arena_filled.1 = 10
  ∧ capacity_ arena_filled.1 = 10
  ∧ (allocate 1 arena_filled).1 = inr 4136
  ∧ (allocate 1 arena_filled).2.1 = mk 4136 20 1
  ∧ load 4136 (allocate 1 arena_filled).2.2 = Some 100
  ∧ faults (allocate 1 arena_filled).2.2 = 0%nat.
Proof. vm_compute. done. Qed.
End AllocatorTheory.

(** ** The dynamic array *)

Module ContainerTheory.
Import CustomContainer.

Section container.
Context {T : Type} `{!Sized T} {A : Type} {alloc : Allocator T A}.

(** A growth step whose [allocate] throws stops there: the container's
    own members are untouched ([alloc_] and the store are as [allocate]
    left them). *)
Lemma resize_allocate_throws new_capacity (c : t A) h e a' h' :
  allocate new_capacity (alloc_ c, h) = (inl e, (a', h')) →
  resize new_capacity (c, h) = (inl e, (set_alloc_ a' c, h')).
Proof.
  intros E. unfold resize, bind, this, with_alloc at 1. by rewrite E.
Qed.
End container.

(** *** Appends that do not grow *)

Section appends.
Context {T : Type} `{!Sized T} {A : Type} {alloc : Allocator T A}.

(** Both allocators construct by placement new and sizes are not zero. *)
Hypothesis construct_places : ∀ p (v : T) (a : A) h,
  construct p v (a, h) = (inr (), (a, (placement_new p v h).2)).
Hypothesis sizeof_positive : 0 < sizeof T.

Lemma push_back_fits (v : T) (c : t A) (h : heap T) :
  size_ c ≠ capacity_ c →
  push_back v (c, h)
  = (inr (), (set_size_ (add64 (size_ c) 1) c,
              (placement_new (ptr_add T (data_ c) (size_ c)) v h).2)).
Proof.
  intros Hroom. unfold push_back, bind, this, when.
  rewrite bool_decide_false by done. unfold ret at 1.
  unfold with_alloc. rewrite construct_places. by destruct c.
Qed.

Lemma load_placement_new p q (v : T) (h : heap T) :
  load q (placement_new p v h).2 = if decide (p = q) then Some v else load q h.
Proof.
  unfold load, placement_new. simpl.
  destruct (in_bounds p h); simpl; apply lookup_insert.
Qed.

Lemma iterate_ext (c : t A) (h h' : heap T) :
  (∀ i, 0 ≤ i < size_ c →
        load (ptr_add T (data_ c) i) h' = load (ptr_add T (data_ c) i) h) →
  iterate c h' = iterate c h.
Proof.
  intros Hsame. unfold iterate, begin, size.
  apply list_fmap_ext. intros k i Hi.
  apply lookup_seqZ in Hi. apply Hsame. lia.
Qed.

(** After an append into spare capacity the container has one element
    more, and iteration reads what it read before, then the new value. *)
Lemma iterate_push_back (v : T) (c : t A) (h : heap T) :
  0 ≤ size_ c < capacity_ c → capacity_ c ≤ SIZE_MAX →
  0 ≤ data_ c → data_ c + capacity_ c * sizeof T ≤ SIZE_MAX →
  ∃ h', push_back v (c, h) = (inr (), (set_size_ (size_ c + 1) c, h'))
        ∧ iterate (set_size_ (size_ c + 1) c) h' = iterate c h ++ [Some v].
Proof.
  intros Hroom Hmax Hdata Hend.
  exists (placement_new (ptr_add T (data_ c) (size_ c)) v h).2. split.
  - rewrite push_back_fits by lia.
    unfold add64, wrap. rewrite Z.mod_small by (unfold SIZE_MAX in *; lia).
    done.
  - unfold iterate, begin, size. cbn [size_ data_ set_size_].
    rewrite seqZ_app by lia. rewrite fmap_app. f_equal.
    + apply list_fmap_ext. intros k i Hi.
      apply lookup_seqZ in Hi. rewrite load_placement_new.
      rewrite decide_False; [done|].
      apply (slots_distinct _ (capacity_ c)); first [done | lia].
    + cbn [seqZ fmap list_fmap]. rewrite Z.add_0_l.
      change (seqZ (size_ c) 1) with [size_ c].
      cbn [fmap list_fmap]. rewrite load_placement_new.
      by rewrite decide_True.
Qed.

(** Any run of appends that fits the capacity returns normally, leaves
    buffer and capacity alone, reports as size the number of appends so
    far, and iteration reads the values in insertion order. *)
Lemma push_all_fits (vs : list T) (c : t A) (h : heap T) :
  let n := Z.of_nat (length vs) in
  0 ≤ size_ c → size_ c + n ≤ capacity_ c → capacity_ c ≤ SIZE_MAX →
  0 ≤ data_ c → data_ c + capacity_ c * sizeof T ≤ SIZE_MAX →
  ∃ h', push_all vs (c, h) = (inr (), (set_size_ (size_ c + n) c, h'))
        ∧ iterate (set_size_ (size_ c + n) c) h'
          = iterate c h ++ (Some <$> vs).
Proof.
  revert c h. induction vs as [|v vs IH];
    intros c h n Hsize Hfit Hmax Hdata Hend; subst n.
  - exists h. simpl. rewrite Z.add_0_r, app_nil_r.
    split; by destruct c.
  - rewrite length_cons, Nat2Z.inj_succ in *.
    destruct (iterate_push_back v c h) as (h1 & E1 & I1);
      [lia|done|done|done|].
    destruct (IH (set_size_ (size_ c + 1) c) h1) as (h2 & E2 & I2);
      simpl; [lia|lia|done|done|done|].
    exists h2. simpl in E2, I2.
    replace (size_ c + Z.succ (Z.of_nat (length vs)))
      with (size_ c + 1 + Z.of_nat (length vs)) by lia.
    assert (∀ k, set_size_ k (set_size_ (size_ c + 1) c) = set_size_ k c)
      as Hset by done.
    rewrite Hset in E2, I2. split.
    + simpl. unfold bind at 1. by rewrite E1.
    + rewrite I2, I1, <- app_assoc. done.
Qed.
End appends.

(** Up to ten appends into the arena-backed container of capacity 10. *)
Lemma arena_appends_fit (vs : list Z) :
  (length vs ≤ 10)%nat →
  ∃ h', push_all vs arena_container
        = (inr (), (set_size_ (Z.of_nat (length vs)) arena_container.1, h'))
        ∧ iterate (set_size_ (Z.of_nat (length vs)) arena_container.1) h'
          = Some <$> vs.
Proof.
  intros Hlen.
  assert (0 < sizeof Z) as Hsz by (unfold sizeof, int_sized; lia).
  destruct (push_all_fits (alloc:=custom_allocator) (λ _ _ _ _, eq_refl)
              Hsz vs arena_container.1 arena_container.2)
    as (h' & E & I); simpl;
    [lia|lia|unfold SIZE_MAX; lia|lia
    |unfold sizeof, int_sized, SIZE_MAX; lia|].
  exists h'. simpl in E, I. split; [exact E | exact I].
Qed.

(** With the arena allocator, a failing [allocate] has changed nothing, so
    the whole container is as before the growth step. *)
Lemma arena_resize_allocate_throws {T : Type} `{!Sized T}
    new_capacity (c : t CustomAllocator.t) (h : heap T) e a' h' :
  CustomAllocator.allocate new_capacity (alloc_ c, h) = (inl e, (a', h')) →
  resize new_capacity (c, h) = (inl e, (c, h)).
Proof.
  intros E.
  destruct (AllocatorTheory.allocate_throws_keeps_state _ _ _ _ _ _ E) as [-> ->].
  rewrite (resize_allocate_throws (alloc:=custom_allocator) _ _ _ _ _ _ E).
  by destruct c.
Qed.

(** Once the arena has grown, the buffer it had before is no longer its
    own: [deallocate] rejects the old pointer. *)
Lemma growth_disowns_old_buffer {T : Type} `{!Sized T}
    (a : CustomAllocator.t) n (h : heap T) p a' h' m :
  CustomAllocator.capacity_ a < add64 (CustomAllocator.used_ a) n →
  CustomAllocator.allocate n (a, h) = (inr p, (a', h')) →
  nullptr < CustomAllocator.data_ a < brk h →
  CustomAllocator.deallocate (CustomAllocator.data_ a) m (a', h')
  = (inl (runtime_error CustomAllocator.not_owned), (a', h')).
Proof.
  intros Hgrow E [Hnull Hold].
  destruct (AllocatorTheory.allocate_growth_buffer _ _ _ _ _ _ Hgrow E)
    as (Hdata & _).
  unfold CustomAllocator.deallocate, bind, this.
  rewrite bool_decide_false by (unfold nullptr in *; lia).
  rewrite Hdata. by rewrite bool_decide_true by lia.
Qed.

Lemma arena_container_constructed :
  new (A:=CustomAllocator.t) 10 heap0 = (inr arena_container.1, arena_container.2).
Proof. vm_compute. reflexivity. Qed.

(** Scenario A, as [main] runs it with either allocator: ten appends into a
    capacity of 10 do not grow the container, and iteration reads
    0, 1, ..., 9. *)
Lemma ten_appends_fit :
  observe (with_container (A:=StdAllocator.t) 10 (push_ints 10) heap0)
  = Some (inr (), 10, 10, Some <$> seqZ 0 10)
  ∧ observe (with_container (A:=CustomAllocator.t) 10 (push_ints 10) heap0)
    = Some (inr (), 10, 10, Some <$> seqZ 0 10).
Proof. split; vm_compute; reflexivity. Qed.

(** C2, at the failing input. On [CustomContainer<int, CustomAllocator<int>>
    c(10)], ten appends succeed; the eleventh throws the allocator's
    ownership error, and leaves the container empty with capacity 10. On
    the way the container has moved from, and destroyed, the ten slots of
    the buffer that the allocator's own growth had just released (the 20
    faults counted). *)
Theorem eleventh_append_throws_on_arena :
  (push_ints 10 arena_container).1 = inr ()
  ∧ size arena_container_full.1 = 10
  ∧ faults arena_container_full.2 = 0%nat
  ∧ (push_back 10 arena_container_full).1
    = inl (runtime_error CustomAllocator.not_owned)
  ∧ alloc_ (push_back 10 arena_container_full).2.1
    = CustomAllocator.mk 4136 30 20
  ∧ faults (push_back 10 arena_container_full).2.2 = 20%nat
  ∧ observe (with_container (A:=CustomAllocator.t) 10 (push_ints 11) heap0)
    = Some (inl (runtime_error CustomAllocator.not_owned), 0, 10, []).
Proof. vm_compute. done. Qed.

(** C3, at the failing input. The growth step of the eleventh append on the
    arena-backed container throws from [alloc_.deallocate], after [clear]
    has run: the ten elements at the old buffer are destroyed and [size_]
    is 0, where before the call the container held 0, ..., 9. *)
Theorem failed_growth_destroys_elements :
  size arena_container_full.1 = 10
  ∧ iterate arena_container_full.1 arena_container_full.2 = Some <$> seqZ 0 10
  ∧ (resize 20 arena_container_full).1
    = inl (runtime_error CustomAllocator.not_owned)
  ∧ size (resize 20 arena_container_full).2.1 = 0
  ∧ capacity_ (resize 20 arena_container_full).2.1 = 10
  ∧ data_ (resize 20 arena_container_full).2.1 = data_ arena_container_full.1
  ∧ iterate arena_container_full.1 (resize 20 arena_container_full).2.2
    = replicate 10 None
  ∧ (push_back 10 arena_container_full).2 = (resize 20 arena_container_full).2.
Proof. vm_compute. done. Qed.

(** C6, at two failing inputs. With [std::allocator], after the eleventh
    append into a capacity of 10 the container reports size 1 and iteration
    reads only the value just appended; with the arena allocator and a
    capacity of 2, the same happens at the third append. *)
Theorem append_after_growth_forgets_elements :
  observe (with_container (A:=StdAllocator.t) 10 (push_ints 11) heap0)
  = Some (inr (), 1, 20, [Some 10])
  ∧ observe (with_container (A:=CustomAllocator.t) 2 (push_ints 3) heap0)
    = Some (inr (), 1, 4, [Some 2]).
Proof. split; vm_compute; reflexivity. Qed.
End ContainerTheory.

(** ** The free store under the loops of relocation and destruction *)

Section store_effects.
Context {T : Type} `{!Sized T}.
Implicit Types (h : heap T) (p q s d : ptr).

Lemma in_bounds_blocks p h h' :
  blocks h' = blocks h → in_bounds p h' = in_bounds p h.
Proof. unfold in_bounds. by intros ->. Qed.

Lemma in_bounds_live p bytes h :
  live_range p bytes h → sizeof T ≤ bytes → in_bounds p h = true.
Proof.
  intros (_ & _ & b & Hb & Hlo & Hhi) Hlen. unfold in_bounds.
  apply existsb_exists. exists b. split; [by apply list_elem_of_In|].
  apply bool_decide_eq_true. unfold ptr in *. lia.
Qed.

(** A part of a live range is a live range. *)
Lemma live_range_part p bytes q len h :
  live_range p bytes h → p ≤ q → q + len ≤ p + bytes → live_range q len h.
Proof.
  intros (Hp & Hmax & b & Hb & Hlo & Hhi) ??. unfold live_range.
  split; [lia|]. split; [lia|]. exists b. unfold ptr in *.
  split; [done|]. lia.
Qed.

Lemma live_range_blocks p bytes h h' :
  blocks h' = blocks h → live_range p bytes h → live_range p bytes h'.
Proof. unfold live_range. by intros ->. Qed.

Lemma move_construct_spec s d h :
  ∃ h', move_construct s d h = (inr (), h')
        ∧ blocks h' = blocks h ∧ brk h' = brk h
        ∧ (∀ q, objects h' !! q
               = if decide (d = q) then objects h !! s else objects h !! q)
        ∧ (is_Some (objects h !! s) → in_bounds d h = true →
           faults h' = faults h).
Proof.
  unfold move_construct, placement_new.
  destruct (objects h !! s) as [v|] eqn:E.
  - eexists. split; [done|]. destruct (in_bounds d h); simpl;
      (split_and!; [done|done|intros q; apply lookup_insert|done]).
  - eexists. split; [done|]. simpl.
    split_and!; [done|done|intros q; apply lookup_delete|].
    by intros [? ?].
Qed.

Lemma destroy_at_spec p h :
  ∃ h', destroy_at p h = (inr (), h')
        ∧ blocks h' = blocks h ∧ brk h' = brk h
        ∧ (∀ q, objects h' !! q
               = if decide (p = q) then None else objects h !! q)
        ∧ (is_Some (objects h !! p) → faults h' = faults h).
Proof.
  unfold destroy_at. destruct (objects h !! p) as [v|] eqn:E.
  - eexists. split; [done|]. simpl.
    split_and!; [done|done|intros q; apply lookup_delete|done].
  - eexists. split; [done|]. simpl. split_and!; [done|done| |].
    + intros q. case_decide; [by subst|done].
    + by intros [? ?].
Qed.

(** The moves of [std::uninitialized_move], over any list of indices whose
    destinations are distinct and whose sources are not among the
    destinations. Where every source holds an object and every
    destination lies in a live block, no access is undefined. *)
Lemma move_loop (l : list Z) s d h :
  NoDup (ptr_add T d <$> l) →
  (∀ i j, i ∈ l → j ∈ l → ptr_add T s i ≠ ptr_add T d j) →
  ∃ h', foldr (λ i k, move_construct (ptr_add T s i) (ptr_add T d i) ;; k)
          (ret ()) l h = (inr (), h')
        ∧ blocks h' = blocks h ∧ brk h' = brk h
        ∧ (∀ i, i ∈ l →
             objects h' !! ptr_add T d i = objects h !! ptr_add T s i)
        ∧ (∀ q, (∀ i, i ∈ l → q ≠ ptr_add T d i) →
             objects h' !! q = objects h !! q)
        ∧ ((∀ i, i ∈ l → is_Some (objects h !! ptr_add T s i)
                         ∧ in_bounds (ptr_add T d i) h = true) →
           faults h' = faults h).
Proof.
  revert h. induction l as [|i l IH]; intros h Hnd Hsep.
  { exists h. split_and!; try done. intros i Hi. by apply elem_of_nil in Hi. }
  rewrite fmap_cons in Hnd. apply NoDup_cons in Hnd as [Hi Hnd].
  destruct (move_construct_spec (ptr_add T s i) (ptr_add T d i) h)
    as (h1 & E1 & B1 & K1 & O1 & U1).
  destruct (IH h1 Hnd) as (h2 & E2 & B2 & K2 & O2 & F2 & U2).
  { intros j k Hj Hk. apply Hsep; by apply elem_of_cons; right. }
  assert (∀ k, k ∈ l → ptr_add T d i ≠ ptr_add T d k) as Hfresh.
  { intros k Hk Heq. apply Hi. apply list_elem_of_fmap. by exists k. }
  exists h2. simpl. unfold bind at 1. rewrite E1.
  split; [exact E2|]. split; [congruence|]. split; [congruence|].
  split; [|split].
  - intros j Hj. apply elem_of_cons in Hj as [->|Hj].
    + rewrite F2, O1; [by rewrite decide_True|]. done.
    + rewrite O2, O1 by done. rewrite decide_False; [done|].
      intros Heq. eapply Hsep; [| |symmetry; exact Heq];
        apply elem_of_cons; [by right | by left].
  - intros q Hq. rewrite F2, O1.
    + rewrite decide_False; [done|]. intros <-.
      by eapply Hq; [apply elem_of_cons; left|].
    + intros k Hk. apply Hq. by apply elem_of_cons; right.
  - intros Hok. rewrite U2, U1; [done| | |].
    + apply Hok. by apply elem_of_cons; left.
    + apply Hok. by apply elem_of_cons; left.
    + intros k Hk. destruct (Hok k) as [Hsrc Hdst];
        [by apply elem_of_cons; right|].
      split; [|by rewrite (in_bounds_blocks _ _ _ B1)].
      rewrite O1, decide_False; [done|].
      intros Heq. eapply Hsep; [| |symmetry; exact Heq];
        apply elem_of_cons; [by right | by left].
Qed.

(** The destructions of [clear], over any list of indices. Where the
    slots are distinct and each holds an object, no access is undefined. *)
Lemma destroy_loop {O} (l : list Z) p (o : O) h :
  ∃ h', foldr (λ i k, on_heap (destroy_at (ptr_add T p i)) ;; k)
          (ret ()) l (o, h) = (inr (), (o, h'))
        ∧ blocks h' = blocks h ∧ brk h' = brk h
        ∧ (∀ i, i ∈ l → objects h' !! ptr_add T p i = None)
        ∧ (∀ q, (∀ i, i ∈ l → q ≠ ptr_add T p i) →
             objects h' !! q = objects h !! q)
        ∧ (NoDup (ptr_add T p <$> l) →
           (∀ i, i ∈ l → is_Some (objects h !! ptr_add T p i)) →
           faults h' = faults h).
Proof.
  revert h. induction l as [|i l IH]; intros h.
  { exists h. split_and!; try done. intros i Hi. by apply elem_of_nil in Hi. }
  destruct (destroy_at_spec (ptr_add T p i) h)
    as (h1 & E1 & B1 & K1 & O1 & U1).
  destruct (IH h1) as (h2 & E2 & B2 & K2 & N2 & F2 & U2).
  exists h2. simpl. unfold bind at 1, on_heap at 1. rewrite E1.
  split; [exact E2|]. split; [congruence|]. split; [congruence|].
  split; [|split].
  - intros j Hj. apply elem_of_cons in Hj as [->|Hj]; [|by apply N2].
    destruct (decide (ptr_add T p i ∈ (ptr_add T p <$> l))) as [Hin|Hout].
    + apply list_elem_of_fmap in Hin as (k & -> & Hk). by apply N2.
    + rewrite F2, O1; [by rewrite decide_True|].
      intros k Hk Heq. apply Hout. apply list_elem_of_fmap. by exists k.
  - intros q Hq. rewrite F2, O1.
    + rewrite decide_False; [done|]. intros <-.
      by eapply Hq; [apply elem_of_cons; left|].
    + intros k Hk. apply Hq. by apply elem_of_cons; right.
  - intros Hnd Hok. apply NoDup_cons in Hnd as [Hi Hnd].
    rewrite U2, U1; [done| |done|].
    + apply Hok. by apply elem_of_cons; left.
    + intros k Hk. rewrite O1, decide_False.
      * apply Hok. by apply elem_of_cons; right.
      * intros Heq. apply Hi. apply list_elem_of_fmap. by exists k.
Qed.

(** [::operator delete(p)] keeps every object that lies in no block
    starting at [p], and leaves no live block starting at [p]. Where a
    live block starts at [p], no access is undefined. *)
Lemma operator_delete_spec p h :
  p ≠ nullptr →
  ∃ h', operator_delete p h = (inr (), h')
        ∧ brk h' = brk h
        ∧ (∀ b, b ∈ blocks h' → b ∈ blocks h ∧ b.1 ≠ p)
        ∧ (∀ b, b ∈ blocks h → b.1 ≠ p → b ∈ blocks h')
        ∧ (∀ q, (∀ b, b ∈ blocks h → b.1 = p → ¬ (b.1 ≤ q < b.1 + b.2)) →
             objects h' !! q = objects h !! q)
        ∧ ((∃ b, b ∈ blocks h ∧ b.1 = p) → faults h' = faults h).
Proof.
  intros Hp. unfold operator_delete. rewrite bool_decide_false by done.
  destruct (List.find (is_block p) (blocks h)) as [b|] eqn:E.
  - apply find_some in E as [Hin Hb]. apply list_elem_of_In in Hin.
    unfold is_block in Hb. apply bool_decide_eq_true in Hb.
    eexists. split; [done|]. simpl. split; [done|]. split_and!.
    + intros b' Hb'. apply list_elem_of_In, filter_In in Hb' as [Hb1 Hb2].
      split; [by apply list_elem_of_In|].
      unfold is_block in Hb2. by apply negb_true_iff, bool_decide_eq_false in Hb2.
    + intros b' Hb1 Hb2. apply list_elem_of_In, filter_In.
      split; [by apply list_elem_of_In|].
      unfold is_block. by apply negb_true_iff, bool_decide_eq_false.
    + intros q Hq. specialize (Hq b Hin Hb).
      destruct (objects h !! q) as [v|] eqn:Eq.
      * apply map_lookup_filter_Some. split; [done|]. simpl.
        unfold in_block. by apply bool_decide_eq_false.
      * apply map_lookup_filter_None. by left.
    + done.
  - eexists. split; [done|]. simpl. split; [done|].
    pose proof (find_none _ _ E) as Hnone. split_and!.
    + intros b Hb. split; [done|]. apply list_elem_of_In in Hb.
      specialize (Hnone b Hb). unfold is_block in Hnone.
      by apply bool_decide_eq_false in Hnone.
    + done.
    + done.
    + intros (b & Hb & Hbase). apply list_elem_of_In in Hb.
      specialize (Hnone b Hb). unfold is_block in Hnone.
      by apply bool_decide_eq_false in Hnone.
Qed.

(** The slots [0, n) of an array inside the address space, as a list
    without repetition. *)
Lemma slots_NoDup p n :
  0 < sizeof T → 0 ≤ p → p + n * sizeof T ≤ SIZE_MAX →
  NoDup (ptr_add T p <$> seqZ 0 n).
Proof.
  intros Hsz Hp Hend. apply NoDup_fmap_2_strong; [|apply NoDup_seqZ].
  intros i j Hi Hj Heq. apply elem_of_seqZ in Hi, Hj.
  destruct (decide (i = j)) as [|Hne]; [done|].
  by destruct (slots_distinct p n i j Hsz Hp Hend ltac:(lia) ltac:(lia) Hne).
Qed.
End store_effects.

(** ** What a user of the arena can rely on *)

Module ArenaGuarantees.
Import CustomAllocator.

Section arena.
Context {T : Type} `{!Sized T}.
Implicit Types (a : t) (h : heap T) (n : Z) (p : ptr).

Lemma operator_new_full bytes h :
  limit h < brk h + Z.max bytes 1 →
  operator_new bytes h = (inl bad_alloc, h).
Proof. intros. unfold operator_new. by rewrite bool_decide_false by lia. Qed.

Lemma operator_new_room bytes h :
  brk h + Z.max bytes 1 ≤ limit h →
  ∃ h', operator_new bytes h = (inr (brk h), h')
        ∧ blocks h' = (brk h, bytes) :: blocks h
        ∧ objects h' = objects h
        ∧ brk h' = brk h + Z.max bytes 1.
Proof.
  intros. unfold operator_new. rewrite bool_decide_true by lia.
  by eexists.
Qed.

Lemma allocate_unfold_growth a n h :
  capacity_ a < add64 (used_ a) n →
  allocate n (a, h) =
    (resize (growth_target a n);;
     a' <- this;;
     assign (set_used_ (add64 (used_ a') n));;
     ret (ptr_add T (data_ a') (used_ a'))) (a, h).
Proof.
  intros. unfold allocate, bind at 1, this at 1, when.
  by rewrite bool_decide_true by lia.
Qed.

Lemma growth_target_above_cursor a n :
  inv a → capacity_ a < add64 (used_ a) n → used_ a < growth_target a n.
Proof. unfold inv, growth_target. lia. Qed.

Lemma allocate_growth_outcome a n h :
  capacity_ a < add64 (used_ a) n → used_ a < growth_target a n →
  let len := Z.max (mul64 (growth_target a n) (sizeof T)) 1 in
  (brk h + len ≤ limit h → ∃ p s, allocate (T:=T) n (a, h) = (inr p, s))
  ∧ (limit h < brk h + len → allocate (T:=T) n (a, h) = (inl bad_alloc, (a, h))).
Proof.
  intros Hgrow Hlt len. subst len.
  rewrite allocate_unfold_growth by done. split; intros Hstore.
  - destruct (operator_new_room _ h Hstore) as (h1 & E & _).
    destruct (AllocatorTheory.resize_ok _ _ _ _ _ Hlt E) as [h2 E2].
    unfold bind at 1. rewrite E2. by eexists _, _.
  - pose proof (operator_new_full _ h Hstore) as E.
    unfold bind at 1.
    by rewrite (AllocatorTheory.resize_bad_alloc _ _ _ _ _ Hlt E).
Qed.

Lemma deallocate_inside a p n h :
  in_buffer (T:=T) a p → deallocate (T:=T) p n (a, h) = (inr (), (a, h)).
Proof.
  unfold in_buffer. intros [Hlo Hhi]. unfold deallocate, bind, this.
  case_bool_decide; [done|].
  rewrite bool_decide_false by lia. by rewrite bool_decide_false by lia.
Qed.

(** X1. In a state that satisfies the invariant, [allocate(n)] throws
    exactly when it has to grow and the store cannot supply the new
    buffer; what it throws is then [std::bad_alloc] (never the
    [runtime_error] of [resize]), and allocator and store are as before
    the call. *)
Theorem allocate_fails_only_with_bad_alloc a n h :
  inv a → is_size_t n →
  ((∃ e s, allocate (T:=T) n (a, h) = (inl e, s))
   ↔ capacity_ a < add64 (used_ a) n
     ∧ limit h < brk h + Z.max (mul64 (growth_target a n) (sizeof T)) 1)
  ∧ (∀ e s, allocate (T:=T) n (a, h) = (inl e, s) → e = bad_alloc ∧ s = (a, h)).
Proof.
  intros Hinv Hn.
  destruct (decide (capacity_ a < add64 (used_ a) n)) as [Hgrow|Hfit].
  - pose proof (growth_target_above_cursor a n Hinv Hgrow) as Hlt.
    destruct (allocate_growth_outcome a n h Hgrow Hlt) as [Hroom Hfull].
    destruct (decide (brk h + Z.max (mul64 (growth_target a n) (sizeof T)) 1
                      ≤ limit h)) as [Hstore|Hstore].
    + destruct (Hroom Hstore) as (p & s' & ->). split.
      * split; [intros (e & s & Habs); done | lia].
      * intros e s Habs. done.
    + rewrite Hfull by lia. split.
      * split; [intros _; split; lia | by eexists _, _].
      * intros e s Heq. by simplify_eq.
  - rewrite AllocatorTheory.allocate_fits by lia. split.
    + split; [intros (e & s & Habs); done | lia].
    + intros e s Habs. done.
Qed.

(** X2. Two allocations that fit the capacity come one after the other:
    the second range starts where the first ends, the cursor has advanced
    by the sum, and nothing else has changed. *)
Theorem consecutive_allocations_adjacent a n1 n2 h :
  0 ≤ used_ a → 0 ≤ n1 → 0 ≤ n2 →
  used_ a + n1 + n2 ≤ capacity_ a → capacity_ a ≤ SIZE_MAX →
  (p1 <- allocate (T:=T) n1;; p2 <- allocate n2;; ret (p1, p2)) (a, h)
  = (inr (ptr_add T (data_ a) (used_ a),
          ptr_add T (ptr_add T (data_ a) (used_ a)) n1),
     (set_used_ (used_ a + n1 + n2) a, h)).
Proof.
  intros Hused Hn1 Hn2 Hfit Hmax.
  assert (∀ x y, 0 ≤ x → 0 ≤ y → x + y ≤ SIZE_MAX → add64 x y = x + y) as Hsum.
  { intros x y ???. unfold add64, wrap. apply Z.mod_small.
    unfold SIZE_MAX in *. lia. }
  assert (add64 (used_ a) n1 = used_ a + n1) as E1 by (apply Hsum; lia).
  assert (add64 (used_ a + n1) n2 = used_ a + n1 + n2) as E2
    by (apply Hsum; lia).
  unfold bind at 1. rewrite AllocatorTheory.allocate_fits by lia.
  unfold bind at 1. rewrite AllocatorTheory.allocate_fits
    by (simpl; rewrite E1, E2; lia).
  simpl. rewrite E1, E2.
  by rewrite ptr_add_assoc.
Qed.

(** X3. When the buffer the allocator holds after [allocate(n)] fits the
    address space, the pointer [allocate(n)] returned for [n >= 1] is one
    the same allocator accepts back: [deallocate(p, n)] returns normally,
    and the cursor stays where the allocation left it. *)
Theorem allocate_then_deallocate a n h p a' h' :
  0 < sizeof T → inv a → capacity_ a ≤ SIZE_MAX →
  1 ≤ n → used_ a + n ≤ SIZE_MAX →
  allocate (T:=T) n (a, h) = (inr p, (a', h')) →
  addressable (T:=T) a' →
  deallocate (T:=T) p n (a', h') = (inr (), (a', h'))
  ∧ in_buffer (T:=T) a' p.
Proof.
  intros Hsz Hinv Hmax Hn Hsum E (Hdata & Hlen & Hend).
  assert (add64 (used_ a) n = used_ a + n) as Hadd.
  { unfold add64, wrap. apply Z.mod_small. unfold inv, SIZE_MAX in *. lia. }
  assert (in_buffer (T:=T) a' p) as Hin.
  { destruct (AllocatorTheory.allocate_cases a n h)
      as [[Hfit E']|[[Hgrow [e E']]|(Hgrow & Hlt & h2 & E')]];
      rewrite E' in E; simplify_eq; unfold in_buffer; simpl in *.
    - unfold inv in *. rewrite !ptr_add_exact by nia. nia.
    - assert (0 ≤ cursor_after_growth a < growth_target a n).
      { unfold cursor_after_growth, inv in *. case_bool_decide; lia. }
      rewrite !ptr_add_exact by nia. nia. }
  split; [|done]. by apply deallocate_inside.
Qed.

(** X15. The address one past the end of a buffer that fits the address
    space is not a pointer into the buffer: a request for zero slots on a
    full arena returns it without growing, and [deallocate] throws the
    ownership error on it. *)
Theorem one_past_the_end_is_not_owned a h :
  nullptr < data_ a → addressable (T:=T) a →
  is_size_t (capacity_ a) → used_ a = capacity_ a →
  allocate (T:=T) 0 (a, h) = (inr (ptr_add T (data_ a) (capacity_ a)), (a, h))
  ∧ deallocate (T:=T) (ptr_add T (data_ a) (capacity_ a)) 0 (a, h)
    = (inl (runtime_error not_owned), (a, h)).
Proof.
  intros Hdata (_ & Hlen & Hend) Hcap Hfull.
  assert (add64 (used_ a) 0 = capacity_ a) as Hsum.
  { unfold add64, wrap. rewrite Z.add_0_r, Hfull. apply Z.mod_small.
    unfold is_size_t, SIZE_MAX in *. lia. }
  split.
  - rewrite AllocatorTheory.allocate_fits by lia.
    rewrite Hsum, Hfull. by destruct a; simplify_eq/=.
  - unfold deallocate, bind, this, nullptr in *.
    rewrite (ptr_add_exact (data_ a) (capacity_ a)) by lia.
    rewrite bool_decide_false by lia.
    rewrite (bool_decide_false (_ < _)) by lia.
    by rewrite bool_decide_true by lia.
Qed.

Lemma operator_delete_shrinks p h q :
  objects h !! q = None → objects (operator_delete (T:=T) p h).2 !! q = None.
Proof.
  intros Hq. unfold operator_delete. case_bool_decide; [done|].
  destruct (List.find _ _); simpl; [|done].
  apply map_lookup_filter_None. by left.
Qed.

(** X5. A growth step relocates. Let the buffer be a live block of the
    store whose slots below the cursor all hold objects, and let the new
    capacity in bytes fit a [size_t]. After [resize(new_capacity)] has
    returned, the buffer is a fresh block of [new_capacity] slots; slot
    [i] of it holds what slot [i] of the old buffer held, for every [i]
    below the old cursor, in the same order; the old slots hold no object
    any more and the old buffer is no longer a live block; and no access
    on the way was undefined. *)
Theorem resize_relocates a new_capacity h a' h' len :
  0 < sizeof T → below_brk h →
  nullptr < data_ a < brk h → (data_ a, len) ∈ blocks h →
  0 ≤ used_ a → used_ a * sizeof T ≤ len →
  (∀ i, 0 ≤ i < used_ a → is_Some (load (ptr_add T (data_ a) i) h)) →
  new_capacity * sizeof T ≤ SIZE_MAX →
  resize (T:=T) new_capacity (a, h) = (inr (), (a', h')) →
  data_ a' = brk h
  ∧ capacity_ a' = new_capacity
  ∧ (∀ i, 0 ≤ i < used_ a →
       load (ptr_add T (data_ a') i) h' = load (ptr_add T (data_ a) i) h
       ∧ load (ptr_add T (data_ a) i) h' = None)
  ∧ (∀ b, b ∈ blocks h' → b.1 ≠ data_ a)
  ∧ (brk h, new_capacity * sizeof T) ∈ blocks h'
  ∧ faults h' = faults h.
Proof.
  intros Hsz Hwf [Hnull Hold] Hblock Hused Hlen Hobjs Hbytes E.
  unfold nullptr in *.
  destruct (decide (new_capacity ≤ used_ a)) as [Hsmall|Hbig].
  { by rewrite AllocatorTheory.resize_too_small in E. }
  assert (used_ a < new_capacity) as Hlt by lia.
  assert (mul64 new_capacity (sizeof T) = new_capacity * sizeof T) as Hmul.
  { apply wrap_small. nia. }
  destruct (decide (brk h + Z.max (mul64 new_capacity (sizeof T)) 1 ≤ limit h))
    as [Hroom|Hfull].
  2:{ assert (limit h < brk h + Z.max (mul64 new_capacity (sizeof T)) 1)
        as Hfull' by lia.
      rewrite (AllocatorTheory.resize_bad_alloc _ _ _ _ _ Hlt
                 (operator_new_full _ h Hfull')) in E. done. }
  destruct (operator_new_room _ h Hroom) as (h1 & E1 & B1 & O1 & K1).
  destruct (operator_new_inv _ _ _ _ E1) as (_ & Hmax & _ & _ & _ & U1).
  rewrite Hmul in *.
  assert (data_ a + len ≤ brk h) as Hbelow.
  { apply (proj1 (Forall_forall _ _) Hwf _ Hblock). }
  assert (∀ i, 0 ≤ i ≤ used_ a →
               ptr_add T (data_ a) i = data_ a + i * sizeof T) as Xold.
  { intros i Hi. apply ptr_add_exact. nia. }
  assert (∀ i, 0 ≤ i ≤ new_capacity →
               ptr_add T (brk h) i = brk h + i * sizeof T) as Xnew.
  { intros i Hi. apply ptr_add_exact. nia. }
  destruct (move_loop (seqZ 0 (used_ a)) (data_ a) (brk h) h1)
    as (h2 & E2 & B2 & K2 & O2 & F2 & U2).
  { apply slots_NoDup; [done|lia|nia]. }
  { intros i j Hi Hj. apply elem_of_seqZ in Hi, Hj.
    rewrite Xold, Xnew by lia. nia. }
  destruct (destroy_loop (seqZ 0 (used_ a)) (data_ a) a h2)
    as (h3 & E3 & B3 & K3 & N3 & F3 & U3).
  destruct (operator_delete_spec (data_ a) h3)
    as (h4 & E4 & K4 & B4 & B4' & F4 & U4).
  { unfold nullptr. lia. }
  assert (resize new_capacity (a, h)
          = (inr (), (mk (brk h) new_capacity 0, h4))) as E'.
  { unfold resize, bind at 1, this at 1.
    rewrite bool_decide_false by lia.
    unfold bind at 1, on_heap at 1. rewrite Hmul, E1.
    unfold bind at 1, on_heap at 1, uninitialized_move, for_range. rewrite E2.
    unfold bind at 1, clear, bind at 1, this at 1, when.
    rewrite bool_decide_true by (unfold nullptr in *; lia).
    unfold bind at 1, for_range. rewrite E3.
    unfold assign at 1. unfold bind at 1. simpl.
    rewrite E4. done. }
  rewrite E' in E. simplify_eq. simpl.
  split; [done|]. split; [done|]. split; [|split; [|split]].
  - intros i Hi. unfold load.
    assert (objects h3 !! ptr_add T (data_ a) i = None) as Hgone.
    { apply N3. apply elem_of_seqZ. lia. }
    split.
    + rewrite F4, F3, O2, O1; [done| | |].
      * apply elem_of_seqZ. lia.
      * intros k Hk. apply elem_of_seqZ in Hk.
        rewrite Xold, Xnew by lia. nia.
      * intros b Hb Hbase. rewrite B3, B2, B1 in Hb.
        apply elem_of_cons in Hb as [->|Hb]; [simpl in *; lia|].
        pose proof (proj1 (Forall_forall _ _) Hwf b Hb) as Hb'.
        cbv beta in Hb'. rewrite Xnew by lia.
        assert (0 ≤ i * sizeof T) by (apply Z.mul_nonneg_nonneg; lia).
        unfold ptr in *. lia.
    + pose proof (operator_delete_shrinks (data_ a) h3 _ Hgone) as Hnone.
      by rewrite E4 in Hnone.
  - intros b Hb. by apply B4 in Hb as [_ ?].
  - apply B4'; [|simpl; lia]. rewrite B3, B2, B1. by apply elem_of_cons; left.
  - rewrite U4, U3, U2, U1; [done| | | |].
    + intros i Hi. apply elem_of_seqZ in Hi. split.
      * rewrite O1. apply Hobjs. lia.
      * unfold in_bounds. apply existsb_exists.
        exists (brk h, new_capacity * sizeof T).
        split; [apply list_elem_of_In; rewrite B1; by apply elem_of_cons; left|].
        apply bool_decide_eq_true. simpl. rewrite Xnew by lia. nia.
    + apply slots_NoDup; [done|lia|nia].
    + intros i Hi. apply elem_of_seqZ in Hi. rewrite F2, O1.
      * apply Hobjs. lia.
      * intros k Hk. apply elem_of_seqZ in Hk.
        rewrite Xold, Xnew by lia. nia.
    + exists (data_ a, len). split; [|done].
      rewrite B3, B2, B1. by apply elem_of_cons; right.
Qed.


(** X6. The destructor of the allocator destroys the objects below the
    cursor and resets the cursor, and that is all: the buffer is not
    released, every block of the store that was live is still live. *)
Theorem destructor_keeps_buffer a h :
  data_ a ≠ nullptr →
  ∃ h', delete (T:=T) (a, h) = (inr (), (set_used_ 0 a, h'))
        ∧ blocks h' = blocks h
        ∧ (∀ i, 0 ≤ i < used_ a → load (ptr_add T (data_ a) i) h' = None)
        ∧ (∀ q, (∀ i, 0 ≤ i < used_ a → q ≠ ptr_add T (data_ a) i) →
             load q h' = load q h).
Proof.
  intros Hdata.
  destruct (destroy_loop (seqZ 0 (used_ a)) (data_ a) a h)
    as (h1 & E1 & B1 & K1 & N1 & F1).
  exists h1. split.
  { unfold delete, clear, bind at 1, this at 1, when.
    rewrite bool_decide_true by done.
    unfold bind at 1, for_range. by rewrite E1. }
  split; [done|]. split.
  - intros i Hi. apply N1, elem_of_seqZ. lia.
  - intros q Hq. apply F1. intros i Hi. apply Hq.
    apply elem_of_seqZ in Hi. lia.
Qed.

(** X14. Pointers into the buffer stay good exactly until the arena
    grows. After an [allocate] that did not grow, [deallocate] accepts
    every pointer of the buffer as before; after one that grew, it
    throws the ownership error on every non-null pointer of the old
    buffer. *)
Theorem pointers_valid_until_growth a n h p a' h' q m :
  allocate (T:=T) n (a, h) = (inr p, (a', h')) →
  nullptr < q → in_buffer (T:=T) a q →
  ptr_add T (data_ a) (capacity_ a) ≤ brk h →
  (add64 (used_ a) n ≤ capacity_ a →
   deallocate (T:=T) q m (a', h') = (inr (), (a', h')))
  ∧ (capacity_ a < add64 (used_ a) n →
     deallocate (T:=T) q m (a', h')
     = (inl (runtime_error not_owned), (a', h'))).
Proof.
  intros E Hq Hin Hend. split.
  - intros Hfit. rewrite AllocatorTheory.allocate_fits in E by done.
    simplify_eq. by apply deallocate_inside.
  - intros Hgrow.
    destruct (AllocatorTheory.allocate_growth_buffer _ _ _ _ _ _ Hgrow E)
      as [Hdata _].
    unfold in_buffer in Hin. unfold deallocate, bind, this.
    rewrite bool_decide_false by (unfold nullptr in *; lia).
    rewrite Hdata. by rewrite bool_decide_true by lia.
Qed.
End arena.

Lemma below_brk_arena_filled : below_brk arena_filled.2.
Proof. vm_compute. repeat constructor; simpl; intros; discriminate. Qed.

Lemma arena_full_inv : inv arena_full.1.
Proof. unfold inv. simpl. lia. Qed.

Lemma arena_filled_slots i :
  0 ≤ i < used_ arena_filled.1 →
  is_Some (load (ptr_add Z (data_ arena_filled.1) i) arena_filled.2).
Proof.
  intros Hi. assert (i ∈ seqZ 0 10) as Hin by (apply elem_of_seqZ; exact Hi).
  repeat (apply elem_of_cons in Hin as [->|Hin]; [vm_compute; by eexists|]).
  by apply elem_of_nil in Hin.
Qed.

Lemma int_size_pos : 0 < sizeof Z.
Proof. unfold sizeof, int_sized. lia. Qed.

Lemma one_is_size_t : is_size_t 1.
Proof. unfold is_size_t, SIZE_MAX. lia. Qed.

(** On a store with 14 bytes left, the full arena cannot grow. *)
Lemma allocate_fails_only_with_bad_alloc_witness :
  allocate 1 arena_tight = (inl bad_alloc, arena_tight).
Proof.
  destruct (allocate_fails_only_with_bad_alloc (T:=Z)
              arena_tight.1 1 arena_tight.2 arena_full_inv one_is_size_t)
    as [[_ Hthrows] Honly].
  destruct Hthrows as (e & s & E); [split; vm_compute; reflexivity|].
  destruct (Honly e s E) as [-> ->]. exact E.
Defined.

(** Two and then three slots from the arena with the cursor at 5. *)
Lemma consecutive_allocations_adjacent_witness :
  (p1 <- allocate 2;; p2 <- allocate 3;; ret (p1, p2)) arena_half
  = (inr (4116, 4124), arena_full).
Proof.
  refine (consecutive_allocations_adjacent (T:=Z)
            arena_half.1 2 3 arena_half.2 _ _ _ _ _);
    vm_compute; discriminate.
Defined.

(** One slot from the full arena (the call grows), handed back. *)
Lemma allocate_then_deallocate_witness :
  deallocate 4136 1 (allocate (T:=Z) 1 arena_full).2
  = (inr (), (allocate (T:=Z) 1 arena_full).2).
Proof.
  assert (allocate (T:=Z) 1 arena_full
          = (inr 4136, ((allocate (T:=Z) 1 arena_full).2.1,
                        (allocate (T:=Z) 1 arena_full).2.2))) as E
    by (vm_compute; reflexivity).
  destruct (allocate_then_deallocate (T:=Z) arena_full.1 1 arena_full.2 _ _ _
              int_size_pos arena_full_inv
              ltac:(vm_compute; discriminate) ltac:(lia)
              ltac:(vm_compute; discriminate) E) as [Hback _].
  { vm_compute. split_and!; discriminate. }
  rewrite <- surjective_pairing in Hback. exact Hback.
Defined.

(** Zero slots from the full arena of 10 slots. *)
Lemma one_past_the_end_is_not_owned_witness :
  allocate 0 arena_full = (inr 4136, arena_full)
  ∧ deallocate 4136 0 arena_full = (inl (runtime_error not_owned), arena_full).
Proof.
  refine (one_past_the_end_is_not_owned (T:=Z) arena_full.1 arena_full.2
            _ _ _ _).
  - vm_compute. reflexivity.
  - vm_compute. split_and!; discriminate.
  - split; vm_compute; discriminate.
  - reflexivity.
Defined.

(** Where the end of the buffer wraps around the address space to the
    null pointer, [deallocate] returns on it: the null test comes first. *)
Lemma one_past_the_end_wrapped_to_null :
  let a := mk 4096 (2 ^ 62 - 1024) (2 ^ 62 - 1024) in
  ptr_add Z (data_ a) (capacity_ a) = nullptr
  ∧ deallocate (T:=Z) (ptr_add Z (data_ a) (capacity_ a)) 0 (a, heap0)
    = (inr (), (a, heap0)).
Proof. split; vm_compute; reflexivity. Qed.

(** The growth of the filled arena to 20 slots: slot 3 of the new buffer
    holds the 103 that slot 3 of the old buffer held. *)
Lemma resize_relocates_witness :
  load (ptr_add Z 4136 3) (resize (T:=Z) 20 arena_filled).2.2 = Some 103
  ∧ load (ptr_add Z 4096 3) (resize (T:=Z) 20 arena_filled).2.2 = None.
Proof.
  assert (resize (T:=Z) 20 (arena_filled.1, arena_filled.2)
          = (inr (), ((resize (T:=Z) 20 arena_filled).2.1,
                      (resize (T:=Z) 20 arena_filled).2.2))) as E
    by (vm_compute; reflexivity).
  destruct (resize_relocates (T:=Z) arena_filled.1 20 arena_filled.2 _ _ 40
              int_size_pos below_brk_arena_filled
              ltac:(vm_compute; split; reflexivity)
              ltac:(vm_compute; apply list_elem_of_here)
              ltac:(vm_compute; discriminate)
              ltac:(vm_compute; discriminate)
              arena_filled_slots
              ltac:(vm_compute; discriminate) E)
    as (_ & _ & Hslots & _).
  destruct (Hslots 3 ltac:(vm_compute; split; [discriminate|reflexivity]))
    as [Hnew Hold].
  split; [|exact Hold].
  transitivity (load (ptr_add Z (data_ arena_filled.1) 3) arena_filled.2);
    [exact Hnew | vm_compute; reflexivity].
Defined.

(** The second slot of the full arena, before and after the arena grows. *)
Lemma pointers_valid_until_growth_witness :
  deallocate 4100 1 arena_full = (inr (), arena_full)
  ∧ deallocate 4100 1 (allocate (T:=Z) 1 arena_full).2
    = (inl (runtime_error not_owned), (allocate (T:=Z) 1 arena_full).2).
Proof.
  assert (in_buffer (T:=Z) arena.1 4100) as Hin
    by (vm_compute; split; [discriminate|reflexivity]).
  split.
  - destruct (pointers_valid_until_growth (T:=Z) arena.1 10 arena.2 _ _ _
                4100 1 AllocatorTheory.arena_full_reached
                ltac:(vm_compute; reflexivity) Hin
                ltac:(vm_compute; discriminate)) as [Hstay _].
    apply Hstay. vm_compute. discriminate.
  - assert (allocate (T:=Z) 1 (arena_full.1, arena_full.2)
            = (inr 4136, ((allocate (T:=Z) 1 arena_full).2.1,
                          (allocate (T:=Z) 1 arena_full).2.2))) as E
      by (vm_compute; reflexivity).
    destruct (pointers_valid_until_growth (T:=Z) arena_full.1 1 arena_full.2
                _ _ _ 4100 1 E
                ltac:(vm_compute; reflexivity) Hin
                ltac:(vm_compute; discriminate)) as [_ Hgone].
    rewrite <- surjective_pairing in Hgone.
    apply Hgone. vm_compute. reflexivity.
Defined.

(** The destructor on the filled arena. *)
Lemma destructor_keeps_buffer_witness :
  ∃ h', delete (arena_filled.1, arena_filled.2)
        = (inr (), (set_used_ 0 arena_filled.1, h'))
        ∧ blocks h' = blocks arena_filled.2.
Proof.
  destruct (destructor_keeps_buffer (T:=Z) arena_filled.1 arena_filled.2)
    as (h' & E & B & _).
  { vm_compute. discriminate. }
  exists h'. split; [exact E | exact B].
Defined.
End ArenaGuarantees.

(** ** [factorial] *)

Module FactorialTheory.

Lemma factorial_base n : n ≤ 1 → factorial n = Some 1.
Proof.
  intros. rewrite factorial_equation_1.
  destruct (decide (n ≤ 1)); [done|lia].
Qed.

Lemma factorial_step n :
  1 < n → factorial n = (r ← factorial (n - 1); mul_int n r).
Proof.
  intros. rewrite factorial_equation_1.
  destruct (decide (n ≤ 1)); [lia|done].
Qed.

Lemma factorial_overflows_from_13 (k : nat) : factorial (13 + Z.of_nat k) = None.
Proof.
  induction k as [|k IH].
  - vm_compute. reflexivity.
  - rewrite factorial_step by lia.
    replace (13 + Z.of_nat (S k) - 1) with (13 + Z.of_nat k) by lia.
    by rewrite IH.
Qed.

(** X13. [factorial(n)] is 1 for every [n <= 1], negative arguments
    included; it is [n!] for [n] from 0 to 12, every product on the way
    fitting an [int]; from 13 on a product overflows [int], so the call
    has no defined result. *)
Theorem factorial_values n :
  (n ≤ 1 → factorial n = Some 1)
  ∧ (0 ≤ n ≤ 12 →
     factorial n = Some (product_up_to n) ∧ is_int (product_up_to n))
  ∧ (13 ≤ n → factorial n = None).
Proof.
  split; [apply factorial_base|]. split.
  - intros Hn.
    assert (n ∈ seqZ 0 13) as Hin by (apply elem_of_seqZ; lia).
    repeat (apply elem_of_cons in Hin as [->|Hin];
            [split; [vm_compute; reflexivity
                    | split; vm_compute; discriminate]|]).
    by apply elem_of_nil in Hin.
  - intros Hn. replace n with (13 + Z.of_nat (Z.to_nat (n - 13))) by lia.
    apply factorial_overflows_from_13.
Qed.

(** [factorial(5)], as [main] calls it for one of the keys 0, ..., 9. *)
Lemma factorial_values_witness : factorial 5 = Some 120.
Proof.
  destruct (factorial_values 5) as (_ & Hfact & _).
  destruct Hfact as [Hval _]; [lia|]. exact Hval.
Defined.
End FactorialTheory.

(** ** What a user of the arena-backed container can rely on *)

Module ContainerGuarantees.
Import CustomContainer.

Section arena_backed.
Context {T : Type} `{!Sized T}.
Implicit Types (c : t CustomAllocator.t) (h : heap T) (v : T).

Lemma set_alloc_same c : set_alloc_ (alloc_ c) c = c.
Proof. by destruct c. Qed.

(** X7. A freshly constructed arena-backed container is empty, has the
    capacity asked for, and its storage is the start of the arena's
    buffer: the arena has handed out exactly [initial_capacity] slots and
    its own capacity covers them (it has grown at construction when more
    than its 10 default slots are asked for). *)
Theorem arena_container_starts_empty initial_capacity h c h' :
  nullptr < brk h → is_size_t initial_capacity →
  new (A:=CustomAllocator.t) initial_capacity h = (inr c, h') →
  size c = 0 ∧ empty c = true ∧ iterate c h' = []
  ∧ capacity_ c = initial_capacity
  ∧ data_ c = CustomAllocator.data_ (alloc_ c)
  ∧ CustomAllocator.used_ (alloc_ c) = initial_capacity
  ∧ initial_capacity ≤ CustomAllocator.capacity_ (alloc_ c).
Proof.
  intros Hbrk Hic. unfold new, bind, default, allocate, nullptr in *. simpl.
  unfold CustomAllocator.new, bind, ret.
  destruct (operator_new (mul64 10 (sizeof T)) h) as [[e|p] h0] eqn:E0;
    [done|].
  destruct (operator_new_inv _ _ _ _ E0) as (-> & Hmax0 & _ & _ & K0 & _).
  pose proof (AllocatorTheory.add64_0_l _ Hic) as Hsum.
  destruct (AllocatorTheory.allocate_cases
              (CustomAllocator.mk (brk h) 10 0) initial_capacity h0)
    as [[Hfit E]|[[Hgrow [e E]]|(Hgrow & Hlt & h2 & E)]].
  - rewrite E. intros; simplify_eq; simpl in *.
    rewrite Hsum in *. unfold iterate. simpl.
    rewrite ptr_add_0 by lia. split_and!; try done; lia.
  - by rewrite E.
  - destruct (ArenaGuarantees.allocate_growth_outcome _ _ h0 Hgrow Hlt)
      as [_ Hfull].
    destruct (decide (limit h0 < brk h0 + Z.max
                (mul64 (CustomAllocator.growth_target
                          (CustomAllocator.mk (brk h) 10 0) initial_capacity)
                   (sizeof T)) 1)) as [Hno|Hroom].
    { rewrite (Hfull Hno) in E. done. }
    assert (brk h0 ≤ SIZE_MAX) by (unfold limit in Hroom; lia).
    rewrite E. intros; simplify_eq; simpl in *.
    unfold CustomAllocator.cursor_after_growth,
      CustomAllocator.growth_target, iterate in *. simpl in *.
    rewrite bool_decide_true by (unfold nullptr in *; lia).
    rewrite Hsum in *. simpl. rewrite ptr_add_0 by lia.
    split_and!; try done; lia.
Qed.

Lemma loop_ext {S} (f g : Z → M S unit) (l : list Z) :
  (∀ i s, f i s = g i s) →
  ∀ s, foldr (λ i k, f i ;; k) (ret ()) l s
       = foldr (λ i k, g i ;; k) (ret ()) l s.
Proof.
  intros Hfg. induction l as [|i l IH]; intros s; [done|].
  simpl. unfold bind at 1 3. rewrite Hfg.
  destruct (g i s) as [[e|[]] s']; [done|apply IH].
Qed.

Lemma with_alloc_destroy p c h :
  with_alloc (destroy (A:=CustomAllocator.t) p) (c, h)
  = on_heap (destroy_at p) (c, h).
Proof.
  unfold with_alloc, destroy. simpl. unfold CustomAllocator.destroy, on_heap.
  destruct (destroy_at p h). by rewrite set_alloc_same.
Qed.

(** [clear] of the container: the elements are destroyed, [size_] is 0,
    and nothing else has changed. Where the elements are distinct slots
    that hold objects, no access is undefined. *)
Lemma container_clear_spec c h :
  ∃ h', clear (c, h) = (inr (), (set_size_ 0 c, h'))
        ∧ blocks h' = blocks h ∧ brk h' = brk h
        ∧ (∀ i, 0 ≤ i < size_ c → load (ptr_add T (data_ c) i) h' = None)
        ∧ (∀ q, (∀ i, 0 ≤ i < size_ c → q ≠ ptr_add T (data_ c) i) →
             load q h' = load q h)
        ∧ (NoDup (ptr_add T (data_ c) <$> seqZ 0 (size_ c)) →
           (∀ i, 0 ≤ i < size_ c →
              is_Some (load (ptr_add T (data_ c) i) h)) →
           faults h' = faults h).
Proof.
  destruct (destroy_loop (seqZ 0 (size_ c)) (data_ c) c h)
    as (h' & E & B & K & N & F & U).
  exists h'. split.
  { unfold clear, bind at 1, this at 1, bind at 1, for_range.
    rewrite (loop_ext _ (λ i, on_heap (destroy_at (ptr_add T (data_ c) i))))
      by (intros i [c' h0]; apply with_alloc_destroy).
    by rewrite E. }
  split; [done|]. split; [done|]. split; [|split].
  - intros i Hi. apply N, elem_of_seqZ. lia.
  - intros q Hq. apply F. intros i Hi. apply Hq.
    apply elem_of_seqZ in Hi. lia.
  - intros Hnd Hok. apply U; [done|]. intros i Hi.
    apply elem_of_seqZ in Hi. apply Hok. lia.
Qed.

Lemma with_alloc_deallocate_inside p n c h :
  p = nullptr ∨ CustomAllocator.in_buffer (T:=T) (alloc_ c) p →
  with_alloc (deallocate (A:=CustomAllocator.t) p n) (c, h) = (inr (), (c, h)).
Proof.
  intros Hp. unfold with_alloc, deallocate. simpl.
  assert (CustomAllocator.deallocate p n (alloc_ c, h)
          = (inr (), (alloc_ c, h))) as ->.
  { destruct Hp as [->|Hin]; [done|].
    by apply ArenaGuarantees.deallocate_inside. }
  by rewrite set_alloc_same.
Qed.




Lemma push_back_unfold_growth v c h :
  size_ c = capacity_ c →
  push_back v (c, h)
  = (resize (mul64 (capacity_ c) 2);;
     c' <- this;;
     with_alloc (construct (ptr_add T (data_ c') (size_ c')) v);;
     assign (set_size_ (add64 (size_ c') 1))) (c, h).
Proof.
  intros. unfold push_back, bind at 1, this at 1, when.
  by rewrite bool_decide_true.
Qed.


(** The growth step of the container up to its call of [deallocate], when
    the elements hold objects and the new storage, a live range, lies
    above the old one: no block has changed and no access was undefined. *)
Lemma container_resize_backed new_capacity c h p a1 h1 :
  0 < sizeof T → 0 ≤ size_ c →
  CustomAllocator.allocate new_capacity (alloc_ c, h) = (inr p, (a1, h1)) →
  0 ≤ data_ c → data_ c + size_ c * sizeof T ≤ p →
  live_range p (size_ c * sizeof T) h1 →
  (∀ i, 0 ≤ i < size_ c → is_Some (load (ptr_add T (data_ c) i) h1)) →
  ∃ h3,
    resize new_capacity (c, h)
    = (with_alloc (deallocate (data_ c) (capacity_ c));;
       assign (set_data_ p);;
       assign (set_capacity_ new_capacity))
        (set_size_ 0 (set_alloc_ a1 c), h3)
    ∧ blocks h3 = blocks h1 ∧ faults h3 = faults h1.
Proof.
  intros Hsz Hsize E Hdata Habove Hlive Hobjs.
  pose proof Hlive as (Hp & Hend & _).
  assert (∀ i, 0 ≤ i ≤ size_ c →
               ptr_add T (data_ c) i = data_ c + i * sizeof T) as Xold.
  { intros i Hi. apply ptr_add_exact. nia. }
  assert (∀ i, 0 ≤ i ≤ size_ c → ptr_add T p i = p + i * sizeof T) as Xnew.
  { intros i Hi. apply ptr_add_exact. nia. }
  assert (∀ i j, i ∈ seqZ 0 (size_ c) → j ∈ seqZ 0 (size_ c) →
                 ptr_add T (data_ c) i ≠ ptr_add T p j) as Hsep.
  { intros i j Hi Hj. apply elem_of_seqZ in Hi, Hj.
    rewrite Xold, Xnew by lia. nia. }
  destruct (move_loop (seqZ 0 (size_ c)) (data_ c) p h1)
    as (h2 & E2 & B2 & K2 & O2 & F2 & U2).
  { apply slots_NoDup; [done|lia|nia]. }
  { exact Hsep. }
  destruct (container_clear_spec (set_alloc_ a1 c) h2)
    as (h3 & E3 & B3 & _ & _ & _ & U3).
  exists h3. split; [|split; [congruence|]].
  { unfold resize, bind at 1, this at 1.
    unfold bind at 1, with_alloc at 1, allocate. simpl. rewrite E.
    unfold bind at 1, on_heap at 1, uninitialized_move, for_range.
    rewrite E2. unfold bind at 1. by rewrite E3. }
  rewrite U3, U2; [done| | |].
  - intros i Hi. split; [apply Hobjs; apply elem_of_seqZ in Hi; lia|].
    apply elem_of_seqZ in Hi. apply (in_bounds_live _ (sizeof T)); [|done].
    apply (live_range_part _ _ _ _ _ Hlive); rewrite Xnew by lia; nia.
  - simpl. apply slots_NoDup; [done|lia|nia].
  - simpl. intros i Hi. unfold load. rewrite F2; [by apply Hobjs|].
    intros k Hk. apply Hsep; [apply elem_of_seqZ; lia | done].
Qed.

(** X10. An append to a full arena-backed container that the arena can
    serve without growing. Let the arena's buffer be a live block inside
    the address space, with room after its cursor for twice the
    container's capacity and for at least one slot; let the container's
    storage lie in the part of the buffer already handed out, and its
    elements hold objects. The append then returns with twice the
    capacity and the storage at the arena's old cursor, but with [size()]
    equal to 1: [clear] has reset [size_] inside the growth step, so the
    container holds the new value only, and iteration reads just that
    value. The arena's cursor has advanced by the new capacity, no block
    of the store has changed and no access was undefined. *)
Theorem append_that_grows_keeps_only_the_new_value v c h :
  0 < sizeof T →
  size_ c = capacity_ c → 0 ≤ size_ c →
  0 ≤ CustomAllocator.used_ (alloc_ c) < CustomAllocator.capacity_ (alloc_ c) →
  CustomAllocator.used_ (alloc_ c) + 2 * capacity_ c
    ≤ CustomAllocator.capacity_ (alloc_ c) →
  live_range (CustomAllocator.data_ (alloc_ c))
    (CustomAllocator.capacity_ (alloc_ c) * sizeof T) h →
  CustomAllocator.data_ (alloc_ c) ≤ data_ c →
  data_ c + size_ c * sizeof T
    ≤ CustomAllocator.data_ (alloc_ c)
      + CustomAllocator.used_ (alloc_ c) * sizeof T →
  (∀ i, 0 ≤ i < size_ c → is_Some (load (ptr_add T (data_ c) i) h)) →
  ∃ c' h', push_back v (c, h) = (inr (), (c', h'))
           ∧ size c' = 1
           ∧ capacity_ c' = 2 * capacity_ c
           ∧ data_ c' = ptr_add T (CustomAllocator.data_ (alloc_ c))
                          (CustomAllocator.used_ (alloc_ c))
           ∧ CustomAllocator.used_ (alloc_ c')
             = CustomAllocator.used_ (alloc_ c) + 2 * capacity_ c
           ∧ iterate c' h' = [Some v]
           ∧ blocks h' = blocks h ∧ faults h' = faults h.
Proof.
  intros Hsz Hfull Hsize Hused Hroom Hlive Hlo Hhi Hobjs.
  pose proof Hlive as (Hdata & Hend & _).
  set (a := alloc_ c) in *.
  assert (CustomAllocator.capacity_ a ≤ SIZE_MAX) as Hcap by nia.
  assert (mul64 (capacity_ c) 2 = 2 * capacity_ c) as Hmul.
  { unfold mul64. rewrite wrap_small by lia. lia. }
  assert (add64 (CustomAllocator.used_ a) (2 * capacity_ c)
          = CustomAllocator.used_ a + 2 * capacity_ c) as Hadd.
  { apply wrap_small. lia. }
  set (p := ptr_add T (CustomAllocator.data_ a) (CustomAllocator.used_ a)).
  assert (p = CustomAllocator.data_ a + CustomAllocator.used_ a * sizeof T)
    as Hp by (apply ptr_add_exact; nia).
  pose proof (AllocatorTheory.allocate_fits (T:=T) a (2 * capacity_ c) h)
    as E. rewrite Hadd in E. specialize (E Hroom). fold p in E.
  destruct (container_resize_backed _ _ _ _ _ _ Hsz Hsize E)
    as (h3 & Eres & B3 & U3).
  { lia. } { lia. }
  { apply (live_range_part _ _ _ _ _ Hlive); nia. }
  { done. }
  assert (ptr_add T p 0 = p) as Hp0 by (apply ptr_add_0; nia).
  assert (in_bounds p h3 = true) as Hin.
  { apply (in_bounds_live _ (sizeof T)); [|done].
    apply (live_range_blocks _ _ h); [done|].
    apply (live_range_part _ _ _ _ _ Hlive); nia. }
  exists (mk (CustomAllocator.set_used_
                (CustomAllocator.used_ a + 2 * capacity_ c) a)
             p 1 (2 * capacity_ c)),
         (placement_new p v h3).2.
  split.
  { rewrite push_back_unfold_growth by done.
    unfold bind at 1. rewrite Hmul, Eres. unfold bind at 1.
    rewrite with_alloc_deallocate_inside.
    - cbn. by rewrite Hp0.
    - right. unfold CustomAllocator.in_buffer. simpl. fold a.
      rewrite ptr_add_exact by nia. nia. }
  split; [done|]. split; [done|]. split; [done|]. split; [done|].
  unfold placement_new. rewrite Hin. simpl. split; [|done].
  unfold iterate, begin, size. simpl.
  change (seqZ 0 1) with [0]. simpl.
  change (Z.of_nat 0 + 0) with 0. rewrite Hp0. unfold load. simpl.
  by rewrite lookup_insert, decide_True.
Qed.

(** One append that does not grow: it needs only [size_ != capacity_].
    Where the slot it writes lies in a live block, no access is
    undefined. *)
Lemma push_back_backed v c h :
  0 < sizeof T → size_ c ≠ capacity_ c → 0 ≤ size_ c →
  live_range (data_ c) ((size_ c + 1) * sizeof T) h →
  ∃ h', push_back v (c, h) = (inr (), (set_size_ (size_ c + 1) c, h'))
        ∧ iterate (set_size_ (size_ c + 1) c) h' = iterate c h ++ [Some v]
        ∧ blocks h' = blocks h ∧ faults h' = faults h.
Proof.
  intros Hsz Hroom Hsize Hlive.
  pose proof Hlive as (Hdata & Hend & _).
  assert (ptr_add T (data_ c) (size_ c) = data_ c + size_ c * sizeof T)
    as Hslot by (apply ptr_add_exact; nia).
  assert (in_bounds (ptr_add T (data_ c) (size_ c)) h = true) as Hin.
  { apply (in_bounds_live _ (sizeof T)); [|done].
    apply (live_range_part _ _ _ _ _ Hlive); rewrite Hslot; nia. }
  exists (placement_new (ptr_add T (data_ c) (size_ c)) v h).2. split_and!.
  - rewrite (ContainerTheory.push_back_fits (alloc:=custom_allocator)
               (λ _ _ _ _, eq_refl)) by done.
    unfold add64. rewrite wrap_small by nia. done.
  - unfold iterate, begin, size. cbn [size_ data_ set_size_].
    rewrite seqZ_app by lia. rewrite fmap_app. f_equal.
    + apply list_fmap_ext. intros k i Hi.
      apply lookup_seqZ in Hi. rewrite ContainerTheory.load_placement_new.
      rewrite decide_False; [done|].
      apply (slots_distinct _ (size_ c + 1)); lia.
    + rewrite Z.add_0_l. change (seqZ (size_ c) 1) with [size_ c].
      cbn [fmap list_fmap]. rewrite ContainerTheory.load_placement_new.
      by rewrite decide_True.
  - unfold placement_new. by rewrite Hin.
  - unfold placement_new. by rewrite Hin.
Qed.

Lemma push_all_backed (vs : list T) c h :
  let n := Z.of_nat (length vs) in
  0 < sizeof T → 0 ≤ size_ c →
  (∀ k, 0 ≤ k < n → size_ c + k ≠ capacity_ c) →
  live_range (data_ c) ((size_ c + n) * sizeof T) h →
  ∃ h', push_all vs (c, h) = (inr (), (set_size_ (size_ c + n) c, h'))
        ∧ iterate (set_size_ (size_ c + n) c) h'
          = iterate c h ++ (Some <$> vs)
        ∧ blocks h' = blocks h ∧ faults h' = faults h.
Proof.
  intros n Hsz. subst n. revert c h.
  induction vs as [|v vs IH]; intros c h Hsize Hroom Hlive.
  - exists h. simpl. rewrite Z.add_0_r, app_nil_r.
    split_and!; try done; by destruct c.
  - rewrite length_cons, Nat2Z.inj_succ in *.
    pose proof Hlive as (Hdata & Hend & _).
    destruct (push_back_backed v c h Hsz) as (h1 & E1 & I1 & B1 & U1).
    { specialize (Hroom 0). rewrite Z.add_0_r in Hroom. apply Hroom. lia. }
    { lia. }
    { apply (live_range_part _ _ _ _ _ Hlive); nia. }
    destruct (IH (set_size_ (size_ c + 1) c) h1) as (h2 & E2 & I2 & B2 & U2).
    { simpl. lia. }
    { simpl. intros k Hk.
      replace (size_ c + 1 + k) with (size_ c + (k + 1)) by lia.
      apply Hroom. lia. }
    { simpl. apply (live_range_blocks _ _ h); [done|].
      apply (live_range_part _ _ _ _ _ Hlive); nia. }
    exists h2. simpl in E2, I2.
    replace (size_ c + Z.succ (Z.of_nat (length vs)))
      with (size_ c + 1 + Z.of_nat (length vs)) by lia.
    assert (∀ k, set_size_ k (set_size_ (size_ c + 1) c) = set_size_ k c)
      as Hset by done.
    rewrite Hset in E2, I2. split_and!.
    + simpl. unfold bind at 1. by rewrite E1.
    + rewrite I2, I1, <- app_assoc. done.
    + congruence.
    + congruence.
Qed.

(** X11. Appends into spare capacity. Let the storage of [capacity_]
    slots lie in a live block of the store, inside the address space. Any
    run of appends that fits the capacity returns normally without
    touching the allocator, the storage pointer or the capacity; [size()]
    has grown by the number of appends and iteration reads what it read
    before, followed by the appended values in insertion order; every
    write went into the block, and no block has changed. *)
Theorem appends_within_capacity (vs : list T) c h :
  0 < sizeof T → 0 ≤ size_ c →
  size_ c + Z.of_nat (length vs) ≤ capacity_ c →
  live_range (data_ c) (capacity_ c * sizeof T) h →
  ∃ h', push_all vs (c, h)
        = (inr (), (set_size_ (size_ c + Z.of_nat (length vs)) c, h'))
        ∧ iterate (set_size_ (size_ c + Z.of_nat (length vs)) c) h'
          = iterate c h ++ (Some <$> vs)
        ∧ blocks h' = blocks h ∧ faults h' = faults h.
Proof.
  intros Hsz Hsize Hfit Hlive.
  pose proof Hlive as (Hdata & Hend & _).
  apply push_all_backed; [done|done| |].
  - intros k Hk. lia.
  - apply (live_range_part _ _ _ _ _ Hlive); nia.
Qed.

Lemma arena_new_small initial_capacity h c h' :
  0 ≤ initial_capacity ≤ 10 →
  new (A:=CustomAllocator.t) initial_capacity h = (inr c, h') →
  c = mk (CustomAllocator.mk (brk h) 10 initial_capacity)
         (ptr_add T (brk h) 0) 0 initial_capacity
  ∧ operator_new (mul64 10 (sizeof T)) h = (inr (brk h), h').
Proof.
  intros Hic. unfold new, bind, default, allocate. simpl.
  unfold CustomAllocator.new, bind, ret.
  destruct (operator_new_cases (mul64 10 (sizeof T)) h)
    as [->|(h0 & -> & Hup)]; [done|].
  assert (add64 0 initial_capacity = initial_capacity) as Hsum.
  { apply AllocatorTheory.add64_0_l. unfold is_size_t, SIZE_MAX. lia. }
  rewrite AllocatorTheory.allocate_fits by (simpl; lia).
  simpl. rewrite Hsum. intros; by simplify_eq.
Qed.

(** The growth step of a container without elements leaves the store as
    [allocate] left it. *)
Lemma container_resize_steps_empty new_capacity c h p a1 h1 :
  size_ c = 0 →
  CustomAllocator.allocate new_capacity (alloc_ c, h) = (inr p, (a1, h1)) →
  resize new_capacity (c, h)
  = (with_alloc (deallocate (data_ c) (capacity_ c));;
     assign (set_data_ p);;
     assign (set_capacity_ new_capacity))
      (set_size_ 0 (set_alloc_ a1 c), h1).
Proof.
  intros Hsize E. destruct c as [a d sz cp]. simpl in *. subst sz.
  unfold resize, bind at 1, this at 1.
  unfold bind at 1, with_alloc at 1, allocate. simpl. rewrite E.
  reflexivity.
Qed.

(** The first append to a container of capacity 0 whose storage pointer
    the arena accepts: the growth step asks for 0 slots, and the value is
    written at the arena's cursor. *)
Lemma first_append_at_zero_capacity v a d h :
  add64 (CustomAllocator.used_ a) 0 ≤ CustomAllocator.capacity_ a →
  d = nullptr ∨ CustomAllocator.in_buffer (T:=T) a d →
  let p := ptr_add T (CustomAllocator.data_ a) (CustomAllocator.used_ a) in
  push_back v (mk a d 0 0, h)
  = (inr (),
     (mk (CustomAllocator.set_used_ (add64 (CustomAllocator.used_ a) 0) a)
         p 1 0,
      (placement_new (ptr_add T p 0) v h).2)).
Proof.
  intros Hroom Hin p. subst p.
  pose proof (AllocatorTheory.allocate_fits (T:=T) a 0 h Hroom) as E.
  rewrite push_back_unfold_growth by done.
  unfold bind at 1. cbn [capacity_]. change (mul64 0 2) with 0.
  rewrite (container_resize_steps_empty 0 (mk a d 0 0) h _ _ _ eq_refl E).
  unfold bind at 1.
  rewrite with_alloc_deallocate_inside; [reflexivity|].
  simpl. destruct Hin as [?|Hin]; [by left|right].
  unfold CustomAllocator.in_buffer in *. by simpl.
Qed.

(** X12. A container constructed with capacity 0 never grows. Its first
    append doubles the capacity 0 to 0, and from then on [size_] differs
    from [capacity_], so no append asks for storage again. After up to 10
    appends (the slots of the arena's default buffer, which the values
    are written into) the capacity is still 0 and the arena has handed
    out no slot, while [size()] counts the appends and iteration reads
    them back, from storage the container never obtained; the writes
    stayed inside the arena's block. *)
Theorem zero_capacity_never_grows v (vs : list T) h c h1 :
  0 < sizeof T → 10 * sizeof T ≤ SIZE_MAX → nullptr < brk h →
  Z.of_nat (length (v :: vs)) ≤ 10 →
  new (A:=CustomAllocator.t) 0 h = (inr c, h1) →
  ∃ c' h', push_all (v :: vs) (c, h1) = (inr (), (c', h'))
           ∧ size c' = Z.of_nat (length (v :: vs))
           ∧ capacity_ c' = 0
           ∧ CustomAllocator.used_ (alloc_ c') = 0
           ∧ iterate c' h' = Some <$> (v :: vs)
           ∧ blocks h' = blocks h1 ∧ faults h' = faults h1.
Proof.
  intros Hsz Hten Hbrk Hlen Enew. unfold nullptr in *.
  destruct (arena_new_small 0 h c h1 ltac:(lia) Enew) as [-> Eblock].
  destruct (operator_new_inv _ _ _ _ Eblock) as (_ & Hmax & B1 & _ & _ & _).
  assert (mul64 10 (sizeof T) = 10 * sizeof T) as Hmul
    by (apply wrap_small; lia).
  rewrite Hmul in *.
  assert (ptr_add T (brk h) 0 = brk h) as Hbase by (apply ptr_add_0; lia).
  assert (live_range (brk h) (10 * sizeof T) h1) as Hlive.
  { split; [lia|]. split; [lia|]. exists (brk h, 10 * sizeof T).
    split; [rewrite B1; by apply elem_of_cons; left | simpl; lia]. }
  rewrite length_cons, Nat2Z.inj_succ in Hlen.
  pose proof (first_append_at_zero_capacity v
                (CustomAllocator.mk (brk h) 10 0) (ptr_add T (brk h) 0) h1)
    as E2.
  cbn [CustomAllocator.used_ CustomAllocator.capacity_ CustomAllocator.data_
       CustomAllocator.set_used_] in E2.
  change (add64 0 0) with 0 in E2. rewrite !Hbase in E2.
  specialize (E2 ltac:(lia)).
  specialize (E2 ltac:(right; unfold CustomAllocator.in_buffer; simpl;
                       rewrite ptr_add_exact by lia; lia)).
  cbv zeta in E2.
  assert (in_bounds (brk h) h1 = true) as Hin.
  { apply (in_bounds_live _ (sizeof T)); [|done].
    apply (live_range_part _ _ _ _ _ Hlive); lia. }
  set (h2 := (placement_new (brk h) v h1).2) in *.
  assert (blocks h2 = blocks h1 ∧ faults h2 = faults h1
          ∧ load (brk h) h2 = Some v) as (B2 & U2 & L2).
  { subst h2. unfold placement_new, load. rewrite Hin. simpl.
    split_and!; [done|done|]. by rewrite lookup_insert, decide_True. }
  destruct (push_all_backed vs
              (mk (CustomAllocator.mk (brk h) 10 0) (brk h) 1 0) h2)
    as (h3 & E3 & I3 & B3 & U3).
  { done. } { simpl. lia. } { simpl. intros k Hk. lia. }
  { simpl. apply (live_range_blocks _ _ h1); [done|].
    apply (live_range_part _ _ _ _ _ Hlive); nia. }
  cbn [size_] in E3, I3. rewrite Hbase. eexists _, h3. split.
  { cbn [push_all foldr]. unfold bind at 1. rewrite E2. exact E3. }
  split; [cbn [size size_ set_size_]; rewrite length_cons; lia|].
  split; [done|]. split; [done|]. split; [|split; congruence].
  rewrite I3. unfold iterate, begin, size. simpl.
  change (seqZ 0 1) with [0]. simpl.
  change (Z.of_nat 0 + 0) with 0. by rewrite Hbase, L2.
Qed.
End arena_backed.

Lemma ten_is_size_t : is_size_t 10.
Proof. unfold is_size_t, SIZE_MAX. lia. Qed.

(** [CustomContainer<int, CustomAllocator<int>> c(10)] on the empty store. *)
Lemma arena_container_starts_empty_witness :
  size arena_container.1 = 0
  ∧ capacity_ arena_container.1 = 10
  ∧ CustomAllocator.used_ (alloc_ arena_container.1) = 10.
Proof.
  destruct (arena_container_starts_empty (T:=Z) 10 heap0
              arena_container.1 arena_container.2
              ltac:(vm_compute; reflexivity) ten_is_size_t
              ContainerTheory.arena_container_constructed)
    as (Hsize & _ & _ & Hcap & _ & Hused & _).
  split; [exact Hsize|]. split; [exact Hcap | exact Hused].
Defined.



(** The two elements of the container of capacity 2. *)
Lemma arena_container_small_elements i :
  0 ≤ i < size_ arena_container_small.1 →
  is_Some (load (ptr_add Z (data_ arena_container_small.1) i)
             arena_container_small.2).
Proof.
  intros Hi. assert (i ∈ seqZ 0 2) as Hin by (apply elem_of_seqZ; exact Hi).
  repeat (apply elem_of_cons in Hin as [->|Hin]; [vm_compute; by eexists|]).
  by apply elem_of_nil in Hin.
Qed.

Lemma arena_container_small_live :
  live_range (CustomAllocator.data_ (alloc_ arena_container_small.1))
    (CustomAllocator.capacity_ (alloc_ arena_container_small.1) * sizeof Z)
    arena_container_small.2.
Proof.
  split; [vm_compute; discriminate|]. split; [vm_compute; discriminate|].
  exists (4096, 40). split; [apply list_elem_of_here|].
  split; vm_compute; discriminate.
Qed.

(** The third append into the container of capacity 2. *)
Lemma append_that_grows_keeps_only_the_new_value_witness :
  ∃ c' h', push_back 2 arena_container_small = (inr (), (c', h'))
           ∧ size c' = 1 ∧ capacity_ c' = 4 ∧ iterate c' h' = [Some 2]
           ∧ faults h' = 0%nat.
Proof.
  destruct (append_that_grows_keeps_only_the_new_value (T:=Z) 2
              arena_container_small.1 arena_container_small.2
              ArenaGuarantees.int_size_pos)
    as (c' & h' & E & Hsize & Hcap & _ & _ & Hit & _ & U).
  { vm_compute. reflexivity. }
  { vm_compute. discriminate. }
  { vm_compute. split; [discriminate|reflexivity]. }
  { vm_compute. discriminate. }
  { exact arena_container_small_live. }
  { vm_compute. discriminate. }
  { vm_compute. discriminate. }
  { exact arena_container_small_elements. }
  exists c', h'. rewrite <- surjective_pairing in E.
  split; [exact E|]. split; [exact Hsize|]. split; [exact Hcap|].
  split; [exact Hit | exact U].
Defined.

(** The storage of the container of capacity 10 is the arena's block. *)
Lemma arena_container_live :
  live_range (data_ arena_container.1)
    (capacity_ arena_container.1 * sizeof Z) arena_container.2.
Proof.
  split; [vm_compute; discriminate|]. split; [vm_compute; discriminate|].
  exists (4096, 40). split; [apply list_elem_of_here|].
  split; vm_compute; discriminate.
Qed.

(** Three appends into the empty container of capacity 10. *)
Lemma appends_within_capacity_witness :
  ∃ h', push_all [7; 8; 9] arena_container
        = (inr (), (set_size_ 3 arena_container.1, h'))
        ∧ iterate (set_size_ 3 arena_container.1) h' = [Some 7; Some 8; Some 9]
        ∧ faults h' = 0%nat.
Proof.
  destruct (appends_within_capacity (T:=Z) [7; 8; 9]
              arena_container.1 arena_container.2
              ArenaGuarantees.int_size_pos)
    as (h' & E & I & _ & U).
  { vm_compute. discriminate. }
  { vm_compute. discriminate. }
  { exact arena_container_live. }
  exists h'. split; [exact E|]. split; [exact I | exact U].
Defined.

Lemma arena_container_zero_constructed :
  new (A:=CustomAllocator.t) 0 heap0
  = (inr arena_container_zero.1, arena_container_zero.2).
Proof. vm_compute. reflexivity. Qed.

(** Two appends into [CustomContainer<int, CustomAllocator<int>> c(0)]. *)
Lemma zero_capacity_never_grows_witness :
  ∃ c' h', push_all [1; 2] arena_container_zero = (inr (), (c', h'))
           ∧ size c' = 2 ∧ capacity_ c' = 0
           ∧ iterate c' h' = [Some 1; Some 2].
Proof.
  destruct (zero_capacity_never_grows (T:=Z) 1 [2] heap0
              arena_container_zero.1 arena_container_zero.2
              ArenaGuarantees.int_size_pos
              ltac:(vm_compute; discriminate)
              ltac:(vm_compute; reflexivity)
              ltac:(vm_compute; discriminate)
              arena_container_zero_constructed)
    as (c' & h' & E & Hsize & Hcap & _ & Hit & _).
  exists c', h'.
  split; [exact E|]. split; [exact Hsize|]. split; [exact Hcap | exact Hit].
Defined.
End ContainerGuarantees.
